(** * fetch_podcasts: extraction, deduplication and rendering of podcast posts

    A shallow embedding of [scripts/fetch_podcasts.py].

    Python [str] values are modelled as lists of characters; a character is
    a code point in U+0000..U+00FF (Rocq's 8-bit [ascii], read as Latin-1),
    and the character classes of the [re] and [str] methods the script calls
    ([\w], [\s], [lower], [strip]) are written out for that range.
    [slugify] is modelled a second time for a [str] of any code points,
    with the Unicode tables as a parameter; on U+0000..U+00FF the two
    models are one. *)

From Stdlib Require Import Ascii String NArith.
From stdpp Require Import base decidable option list gmap strings.

Local Open Scope list_scope.

(** ** 1. Characters and strings *)

Module Py.

(** A Python [str]. *)
Abbreviation pystr := (list ascii).

(** String literals. *)
Abbreviation str := list_ascii_of_string.

Definition code (c : ascii) : N := N_of_ascii c.

Definition in_range (lo hi : N) (c : ascii) : bool :=
  ((lo <=? code c) && (code c <=? hi))%N.

Definition is_ascii_upper (c : ascii) : bool := in_range 65 90 c.
Definition is_ascii_lower (c : ascii) : bool := in_range 97 122 c.
Definition is_ascii_digit (c : ascii) : bool := in_range 48 57 c.

(** The class [[a-zA-Z0-9]] of a [str] pattern. *)
Definition is_ascii_alnum (c : ascii) : bool :=
  is_ascii_lower c || is_ascii_upper c || is_ascii_digit c.

(** Upper-case letters of Latin-1: A-Z, U+00C0..U+00D6, U+00D8..U+00DE. *)
Definition is_upper (c : ascii) : bool :=
  is_ascii_upper c || in_range 192 214 c || in_range 216 222 c.

(** [str.isalnum] on Latin-1: the ASCII letters and digits, the ordinal
    indicators and the micro sign, the superscript digits and the vulgar
    fractions, and the letters U+00C0..U+00FF without the two operators. *)
Definition is_alnum (c : ascii) : bool :=
  is_ascii_alnum c
  || N.eqb (code c) 170 || N.eqb (code c) 181 || N.eqb (code c) 186
  || in_range 178 179 c || N.eqb (code c) 185 || in_range 188 190 c
  || in_range 192 214 c || in_range 216 246 c || in_range 248 255 c.

Definition underscore : ascii := "_"%char.
Definition hyphen : ascii := "-"%char.

(** [\w] of a [str] pattern: alphanumeric or the underscore. *)
Definition is_word (c : ascii) : bool :=
  is_alnum c || Ascii.eqb c underscore.

(** [\s] of a [str] pattern, which is also [str.isspace]. *)
Definition is_space (c : ascii) : bool :=
  in_range 9 13 c || in_range 28 32 c
  || N.eqb (code c) 133 || N.eqb (code c) 160.

(** [str.lower] on one character. *)
Definition lower_char (c : ascii) : ascii :=
  if is_upper c then ascii_of_N (code c + 32) else c.

(** [str.upper] on one ASCII letter (other characters are left alone). *)
Definition upper_ascii_char (c : ascii) : ascii :=
  if is_ascii_lower c then ascii_of_N (code c - 32) else c.

Definition lower (s : pystr) : pystr := map lower_char s.

(** [dropwhile p s]: the longest suffix of [s] whose head fails [p]. *)
Fixpoint dropwhile (p : ascii -> bool) (s : pystr) : pystr :=
  match s with
  | [] => []
  | c :: s' => if p c then dropwhile p s' else s
  end.

Fixpoint takewhile (p : ascii -> bool) (s : pystr) : pystr :=
  match s with
  | [] => []
  | c :: s' => if p c then c :: takewhile p s' else []
  end.

(** [s.strip(chars)] for the class [p], and [s.strip()]. *)
Definition strip_class (p : ascii -> bool) (s : pystr) : pystr :=
  reverse (dropwhile p (reverse (dropwhile p s))).

Definition strip (s : pystr) : pystr := strip_class is_space s.

(** [s[:n]]. *)
Definition slice_to (n : nat) (s : pystr) : pystr := take n s.

(** Python truthiness of a [str]. *)
Definition truthy (s : pystr) : bool :=
  match s with [] => false | _ => true end.

(** [s.startswith(p)], returning the rest. *)
Fixpoint strip_prefix (p s : pystr) : option pystr :=
  match p, s with
  | [], _ => Some s
  | _ :: _, [] => None
  | a :: p', b :: s' => if Ascii.eqb a b then strip_prefix p' s' else None
  end.

(** [sub in s]. *)
Fixpoint contains (sub s : pystr) : bool :=
  match strip_prefix sub s with
  | Some _ => true
  | None => match s with [] => false | _ :: s' => contains sub s' end
  end.

(** [s.split(sep)] for a non-empty [sep]: the pieces between the
    occurrences of [sep], found left to right without overlap. [skip]
    counts the characters of a separator still to pass over and [cur]
    holds the piece being read, reversed. *)
Fixpoint split_aux (sep : pystr) (skip : nat) (cur : pystr) (s : pystr)
  : list pystr :=
  match s with
  | [] => [reverse cur]
  | c :: s' =>
    match skip with
    | S k => split_aux sep k cur s'
    | O =>
      match strip_prefix sep s with
      | Some _ => reverse cur :: split_aux sep (length sep - 1) [] s'
      | None => split_aux sep 0 (c :: cur) s'
      end
    end
  end.

Definition split (sep s : pystr) : list pystr := split_aux sep 0 [] s.

End Py.

Import Py.

(** ** 2. The slug generator *)

(** [re.sub(r'[^\w\s-]', '', text)]. *)
Definition keep_slug_input (c : ascii) : bool :=
  is_word c || is_space c || Ascii.eqb c hyphen.

Definition sub_strip_symbols (text : pystr) : pystr :=
  filter (fun c => keep_slug_input c = true) text.

(** [re.sub(r'[-\s]+', '-', text)]: every maximal run of hyphens and
    white space becomes one hyphen. [in_run] says that the previous
    character belonged to a run. *)
Definition is_sep (c : ascii) : bool := Ascii.eqb c hyphen || is_space c.

Fixpoint collapse_aux (in_run : bool) (text : pystr) : pystr :=
  match text with
  | [] => []
  | c :: text' =>
    if is_sep c
    then (if in_run then collapse_aux true text'
          else hyphen :: collapse_aux true text')
    else c :: collapse_aux false text'
  end.

Definition sub_collapse (text : pystr) : pystr := collapse_aux false text.

Definition is_hyphen (c : ascii) : bool := Ascii.eqb c hyphen.

Definition slugify (text : pystr) : pystr :=
  let text := lower text in
  let text := sub_strip_symbols text in
  let text := sub_collapse text in
  strip_class is_hyphen text.

(** ** 2b. The slug of a [str] of any code points *)

(** [slugify] once more, for a [str] of any code points. A [ustr] is the
    list of the code points of a [str]. What [slugify] asks of Python's
    Unicode database is a parameter: [str.lower], [str.isalnum] (the
    letters and digits, which with the underscore make the class [\w] of a
    [str] pattern) and [str.isspace] (the class [\s]). The lower-cased
    empty string is empty. *)
Abbreviation ustr := (list N).

Record Tables := {
  u_lower : ustr -> ustr;
  u_isalnum : N -> bool;
  u_isspace : N -> bool;
  u_lower_nil : u_lower [] = []
}.

Definition u_underscore : N := 95.
Definition u_hyphen : N := 45.

Definition u_is_hyphen (c : N) : bool := N.eqb c u_hyphen.

Fixpoint u_dropwhile (p : N -> bool) (s : ustr) : ustr :=
  match s with
  | [] => []
  | c :: s' => if p c then u_dropwhile p s' else s
  end.

Definition u_strip_class (p : N -> bool) (s : ustr) : ustr :=
  reverse (u_dropwhile p (reverse (u_dropwhile p s))).

Section UnicodeSlug.
Variable T : Tables.

(** [\w]. *)
Definition u_is_word (c : N) : bool :=
  u_isalnum T c || N.eqb c u_underscore.

(** [re.sub(r'[^\w\s-]', '', text)]. *)
Definition u_keep_slug_input (c : N) : bool :=
  u_is_word c || u_isspace T c || N.eqb c u_hyphen.

Definition u_sub_strip_symbols (text : ustr) : ustr :=
  filter (fun c => u_keep_slug_input c = true) text.

(** [re.sub(r'[-\s]+', '-', text)]. *)
Definition u_is_sep (c : N) : bool := N.eqb c u_hyphen || u_isspace T c.

Fixpoint u_collapse_aux (in_run : bool) (text : ustr) : ustr :=
  match text with
  | [] => []
  | c :: text' =>
    if u_is_sep c
    then (if in_run then u_collapse_aux true text'
          else u_hyphen :: u_collapse_aux true text')
    else c :: u_collapse_aux false text'
  end.

Definition u_sub_collapse (text : ustr) : ustr := u_collapse_aux false text.

(** Lines 32-37. *)
Definition slugify_u (text : ustr) : ustr :=
  let text := u_lower T text in
  let text := u_sub_strip_symbols text in
  let text := u_sub_collapse text in
  u_strip_class u_is_hyphen text.

End UnicodeSlug.

(** ** 3. Feed entries, episodes and the environment *)

(** The exceptions the script can meet. [SystemExit] is what [sys.exit]
    raises; it is not a subclass of [Exception]. [Other cls] is an
    exception of another class [cls] derived from [Exception], such as
    urllib3's [LocationParseError], which [requests.get] lets through for
    an address like [http://a..b/cover.png]. *)
Inductive exn :=
| TypeError
| AttributeError
| IndexError
| OSError
| ParseError
| Other (cls : pystr)
| SystemExit (status : nat).

Definition is_Exception (e : exn) : bool :=
  match e with SystemExit _ => false | _ => true end.

(** An [xml.etree.ElementTree.Element]: [text] is [None] for an element
    without character data, as in [<title/>] and [<title></title>]. A tag
    with a namespace is spelled [{uri}local], as ElementTree does. *)
#[local] Unset Elimination Schemes.
Inductive Element :=
| Elem (tag : pystr) (attrib : gmap pystr pystr) (text : option pystr)
       (children : list Element).
#[local] Set Elimination Schemes.

Definition tag (e : Element) : pystr := let (t, _, _, _) := e in t.
Definition attrib (e : Element) : gmap pystr pystr := let (_, a, _, _) := e in a.
Definition text (e : Element) : option pystr := let (_, _, x, _) := e in x.
Definition children (e : Element) : list Element := let (_, _, _, c) := e in c.

Definition has_tag (t : pystr) (e : Element) : bool :=
  bool_decide (tag e = t).

(** [e.find(t)]: the first direct child with tag [t]. *)
Definition find (t : pystr) (e : Element) : option Element :=
  List.find (has_tag t) (children e).

(** [e.findall(t)]. *)
Definition findall (t : pystr) (e : Element) : list Element :=
  List.filter (has_tag t) (children e).

(** [e.get(key, '')]. *)
Definition get_attr (key : pystr) (e : Element) : pystr :=
  default [] (attrib e !! key).

Definition ns_itunes : pystr := str "http://www.itunes.com/dtds/podcast-1.0.dtd".
Definition ns_content : pystr := str "http://purl.org/rss/1.0/modules/content/".

Definition qname (ns local : pystr) : pystr :=
  str "{" ++ ns ++ str "}" ++ local.

(** A value that is a [str] or [None]. *)
Abbreviation pyval := (option pystr).

(** The dictionary [extract_episode_info] returns. *)
Record Episode := {
  title : pyval;
  date : pystr;
  description : pystr;
  guid : pyval;
  spotify_url : pystr;
  episode_id : pyval;
  image_url : pystr
}.

(** Truthiness of a [str]-or-[None] value. *)
Definition truthy_val (v : pyval) : bool :=
  match v with Some s => truthy s | None => false end.

(** A [datetime.datetime], as far as the script looks at one. *)
Record datetime := {
  dt_year : nat; dt_month : nat; dt_day : nat;
  dt_hour : nat; dt_minute : nat; dt_second : nat;
  dt_utcoffset : option Z
}.

(** The two formats tried on [pubDate]:
    ['%a, %d %b %Y %H:%M:%S %Z'] and ['%a, %d %b %Y %H:%M:%S %z']. *)
Inductive DateFormat := FmtNamedZone | FmtNumericOffset.

(** What the process prints, one constructor per [print] of the script. *)
Inductive LogEvent :=
| LogBanner
| LogPreviouslyProcessed (n : nat)
| LogFetchStart
| LogFetchAttempt (i : nat) (url : pystr)
| LogFetchOk (url : pystr)
| LogFetchFailed
| LogFetchNext
| LogFetchGiveUp
| LogNoChannel
| LogFound (n : nat)
| LogProcessing (t : pyval)
| LogDate (d : pystr)
| LogGuid (g : pyval)
| LogDownloaded (path : pystr)
| LogImageWarning
| LogCreatedPost (path : pystr)
| LogSuccess
| LogError (e : exn)
| LogTraceback (e : exn)
| LogBlank
| LogSummary (n_new n_total : nat)
| LogNewEpisode (g : pyval)
| LogNoNewEpisodes.

(** The state file, as the dictionary [json.load] gives back. *)
Record StateDict := {
  processed_episodes : option (list pyval);
  last_run : option datetime
}.

(** What the script does not decide itself: the [datetime] library, the
    clock, the network, the XML parser and the refusals of the operating
    system. [strptime] gives [None] where Python raises [ValueError];
    [http_get] gives [None] where [requests.get] or the status check
    raises; [parse_xml] gives [None] where [ET.fromstring] raises.
    Where [http_get] gives [None], [http_escapes] tells what was raised:
    [None] for a [RequestException], [Some cls] for an exception of the
    class [cls] that is not one, which [except requests.RequestException]
    does not catch. The image address comes from the feed and can be such
    an address; the two addresses of [RSS_FEED_URLS] are constants that
    [requests] accepts. *)
Record Env := {
  strptime : pystr -> DateFormat -> option datetime;
  strftime_ymd : datetime -> pystr;
  clock : nat -> datetime;
  http_get : pystr -> option pystr;
  http_escapes : pystr -> option pystr;
  parse_xml : pystr -> option Element;
  os_denies : pystr -> bool
}.

(** What the script changes: directories and files, the state file, the
    printed lines and the number of readings of the clock so far. *)
Record World := {
  w_dirs : gset pystr;
  w_files : gmap pystr pystr;
  w_state : option StateDict;
  w_log : list LogEvent;
  w_time : nat
}.

(** ** 4. Computations that change the world and may raise *)

Definition M (A : Type) : Type := World -> (exn + A) * World.

Definition ret {A} (a : A) : M A := fun w => (inr a, w).

Definition raise {A} (e : exn) : M A := fun w => (inl e, w).

Definition bind {A B} (m : M A) (k : A -> M B) : M B :=
  fun w =>
    match m w with
    | (inr a, w') => k a w'
    | (inl e, w') => (inl e, w')
    end.

(** [try: m  except Exception as e: h e]. *)
Definition try_except {A} (m : M A) (h : exn -> M A) : M A :=
  fun w =>
    match m w with
    | (inr a, w') => (inr a, w')
    | (inl e, w') => if is_Exception e then h e w' else (inl e, w')
    end.

Declare Scope py_scope.
Delimit Scope py_scope with py.
Notation "x <- m ;; k" := (bind m (fun x => k))
  (at level 100, m at next level, right associativity) : py_scope.
Notation "m ;;; k" := (bind m (fun _ => k))
  (at level 100, right associativity) : py_scope.
Local Open Scope py_scope.

(** [print(...)]. *)
Definition print (ev : LogEvent) : M unit :=
  fun w => (inr tt, {| w_dirs := w_dirs w; w_files := w_files w;
                       w_state := w_state w; w_log := w_log w ++ [ev];
                       w_time := w_time w |}).

(** ** 5. The episode extractor *)

(** [re.sub(r'<[^>]+>', '', s)]. [find_gt s] is the index of the first
    [>] of [s]. A [<] opens a tag when a [>] follows it at distance at
    least one; the tag is then passed over with the counter [skip]. *)
Definition lt_char : ascii := "<"%char.
Definition gt_char : ascii := ">"%char.

Fixpoint find_gt (s : pystr) : option nat :=
  match s with
  | [] => None
  | c :: s' => if Ascii.eqb c gt_char then Some 0 else S <$> find_gt s'
  end.

Fixpoint strip_tags_aux (skip : nat) (s : pystr) : pystr :=
  match s with
  | [] => []
  | c :: s' =>
    match skip with
    | S k => strip_tags_aux k s'
    | O =>
      if Ascii.eqb c lt_char then
        match find_gt s' with
        | Some (S k) => strip_tags_aux (S (S k)) s'
        | _ => c :: strip_tags_aux 0 s'
        end
      else c :: strip_tags_aux 0 s'
    end
  end.

Definition strip_tags (s : pystr) : pystr := strip_tags_aux 0 s.

(** [re.search(r'/episode/([a-zA-Z0-9]+)', s)], giving group 1: the
    leftmost place where [/episode/] is followed by an ASCII letter or
    digit, and the longest run of them from there. *)
Definition episode_path : pystr := str "/episode/".

Fixpoint search_episode (s : pystr) : option pystr :=
  match s with
  | [] => None
  | _ :: s' =>
    match strip_prefix episode_path s with
    | Some rest =>
      match takewhile is_ascii_alnum rest with
      | [] => search_episode s'
      | id => Some id
      end
    | None => search_episode s'
    end
  end.

Definition uri_marker : pystr := str "spotify:episode:".

Definition untitled : pystr := str "Untitled Episode".

Section Extractor.
Variable env : Env.

(** [datetime.now()]: one more reading of the clock. *)
Definition now : M datetime :=
  fun w => (inr (clock env (w_time w)),
            {| w_dirs := w_dirs w; w_files := w_files w;
               w_state := w_state w; w_log := w_log w;
               w_time := S (w_time w) |}).

Definition today : M pystr :=
  dt <- now ;; ret (strftime_ymd env dt).

(** Lines 92-107. [strptime] of [None] raises [TypeError], which the
    two [except ValueError] clauses let through. *)
Definition extract_date (item : Element) : M pystr :=
  match find (str "pubDate") item with
  | Some pub_date =>
    match text pub_date with
    | None => raise TypeError
    | Some s =>
      match strptime env s FmtNamedZone with
      | Some dt => ret (strftime_ymd env dt)
      | None =>
        match strptime env s FmtNumericOffset with
        | Some dt => ret (strftime_ymd env dt)
        | None => today
        end
      end
    end
  | None => today
  end.

(** Line 90. *)
Definition extract_title (item : Element) : pyval :=
  match find (str "title") item with
  | Some t => text t
  | None => Some untitled
  end.

(** Lines 109-123. *)
Definition extract_description (item : Element) : pystr :=
  let raw :=
    match find (str "description") item with
    | Some d => default [] (text d)
    | None =>
      match find (qname ns_content (str "encoded")) item with
      | Some ce => default [] (text ce)
      | None => []
      end
    end in
  strip (strip_tags raw).

(** Lines 125-127. *)
Definition extract_guid (item : Element) : pyval :=
  match find (str "guid") item with
  | Some g => text g
  | None => Some []
  end.

(** Lines 129-133. *)
Definition extract_spotify_url (item : Element) : pystr :=
  match find (str "link") item with
  | Some l => if truthy_val (text l) then default [] (text l) else []
  | None => []
  end.

(** Lines 135-144: the identifier read off the enclosure. *)
Definition enclosure_episode_id (item : Element) : pyval :=
  match find (str "enclosure") item with
  | Some enclosure => search_episode (get_attr (str "url") enclosure)
  | None => None
  end.

(** Lines 146-157. [split(...)[1]] raises [IndexError] when there is no
    second piece. *)
Definition extract_episode_id (item : Element) (g : pyval) : M pyval :=
  let episode_id := enclosure_episode_id item in
  if negb (truthy_val episode_id) && truthy_val g then
    let gs := default [] g in
    if contains uri_marker gs then
      match split uri_marker gs !! 1%nat with
      | Some piece => ret (Some piece)
      | None => raise IndexError
      end
    else
      match search_episode gs with
      | Some id => ret (Some id)
      | None => ret episode_id
      end
  else ret episode_id.

(** Lines 159-165. *)
Definition extract_image_url (item : Element) : pystr :=
  match find (qname ns_itunes (str "image")) item with
  | Some img => get_attr (str "href") img
  | None => []
  end.

Definition extract_episode_info (item : Element) : M Episode :=
  let t := extract_title item in
  d <- extract_date item ;;
  let descr := extract_description item in
  let g := extract_guid item in
  let url := extract_spotify_url item in
  eid <- extract_episode_id item g ;;
  let img := extract_image_url item in
  ret {| title := t; date := d; description := descr; guid := g;
         spotify_url := url; episode_id := eid; image_url := img |}.

End Extractor.

(** ** 6. The post renderer *)

Definition SPOTIFY_SHOW_ID : pystr := str "43CSCODQFQkZ05u3Up5OD6".

Definition RSS_FEED_URLS : list pystr :=
  [ str "https://anchor.fm/s/" ++ SPOTIFY_SHOW_ID ++ str "/podcast/rss";
    str "https://podcasters.spotify.com/pod/show/" ++ SPOTIFY_SHOW_ID ++ str "/feed" ].

Definition POSTS_DIR : pystr := str "content/podcasts/posts".
Definition STATE_FILE : pystr := str "scripts/.podcast_state.json".

Definition slash : ascii := "/"%char.
Definition nl : pystr := ["010"%char].
Definition dquote : pystr := ["034"%char].

(** [dir / seg] of [pathlib] for a segment without separators: an empty
    segment leaves the directory as it is. *)
Definition path_join (dir seg : pystr) : pystr :=
  match seg with
  | [] => dir
  | _ => dir ++ slash :: seg
  end.

(** [path.parent] of a path with at least one separator. *)
Definition path_parent (path : pystr) : pystr :=
  reverse (drop 1 (dropwhile (fun c => negb (Ascii.eqb c slash)) (reverse path))).

(** [str.title] on ASCII text: a letter is upper-cased when the character
    before it is not a letter, and lower-cased otherwise. *)
Definition is_ascii_letter (c : ascii) : bool :=
  is_ascii_lower c || is_ascii_upper c.

Fixpoint title_aux (prev_cased : bool) (s : pystr) : pystr :=
  match s with
  | [] => []
  | c :: s' =>
    (if prev_cased then lower_char c else upper_ascii_char c)
      :: title_aux (is_ascii_letter c) s'
  end.

Definition title_case (s : pystr) : pystr := title_aux false s.

Definition topic_keywords : list pystr :=
  [ str "data science"; str "machine learning"; str "artificial intelligence";
    str "health metrics"; str "epidemiology"; str "public health";
    str "infectious disease"; str "statistics"; str "research" ].

(** Lines 217-234. *)
Definition key_topics_of (descr : pystr) : list pystr :=
  let description_lower := lower descr in
  let found :=
    title_case <$>
      List.filter (fun keyword => contains keyword description_lower)
                  topic_keywords in
  match found with
  | [] => [str "Health Metrics"; str "Data Science"]
  | _ => found
  end.

(** Lines 212-215. *)
Definition summary_of (descr : pystr) : pystr :=
  let summary := strip (slice_to 200 descr) in
  if decide (200 < length descr) then summary ++ str "..." else summary.

(** Lines 199-204. *)
Definition embed_url_of (eid : pyval) : pystr :=
  if truthy_val eid then
    str "https://open.spotify.com/embed/episode/" ++ default [] eid
      ++ str "?utm_source=generator"
  else
    str "https://open.spotify.com/embed/show/" ++ SPOTIFY_SHOW_ID
      ++ str "/video?utm_source=generator".

Definition iframe_line (embed_url : pystr) : pystr :=
  str "<iframe data-testid=" ++ dquote ++ str "embed-iframe" ++ dquote
  ++ str " style=" ++ dquote ++ str "border-radius:12px" ++ dquote
  ++ str " src=" ++ dquote ++ embed_url ++ dquote
  ++ str " width=" ++ dquote ++ str "624" ++ dquote
  ++ str " height=" ++ dquote ++ str "351" ++ dquote
  ++ str " frameBorder=" ++ dquote ++ str "0" ++ dquote
  ++ str " allowfullscreen=" ++ dquote ++ dquote
  ++ str " allow=" ++ dquote
  ++ str "autoplay; clipboard-write; encrypted-media; fullscreen; picture-in-picture"
  ++ dquote
  ++ str " loading=" ++ dquote ++ str "lazy" ++ dquote
  ++ str "></iframe>".

(** The text after the [image:] line of the front matter. *)
Definition qmd_tail (episode_slug summary embed_url descr : pystr)
    (key_topics : list pystr) : pystr :=
  str "slug: " ++ episode_slug ++ nl
  ++ str "toc: true" ++ nl
  ++ str "categories:" ++ nl
  ++ str "  - health metrics" ++ nl
  ++ str "  - data science" ++ nl
  ++ str "summary: " ++ dquote ++ summary ++ dquote ++ nl
  ++ str "execute: " ++ nl
  ++ str "  eval: false" ++ nl
  ++ str "---" ++ nl
  ++ nl
  ++ nl
  ++ iframe_line embed_url ++ nl
  ++ nl
  ++ nl
  ++ str "## Episode Overview" ++ nl
  ++ nl
  ++ descr ++ nl
  ++ nl
  ++ str "## Key Topics Discussed" ++ nl
  ++ nl
  ++ concat ((fun topic => str "- " ++ topic ++ nl) <$> take 5 key_topics)
  ++ nl ++ nl.

Definition image_line : pystr := str "image: featured.png".

(** Lines 236-267: the text of [index.qmd]. *)
Definition qmd_content_of (t d episode_slug summary embed_url descr : pystr)
    (key_topics : list pystr) : pystr :=
  str "---" ++ nl
  ++ str "title: " ++ dquote ++ t ++ dquote ++ nl
  ++ str "date: '" ++ d ++ str "'" ++ nl
  ++ image_line ++ nl
  ++ qmd_tail episode_slug summary embed_url descr key_topics.

Definition base_slug_of (t : pystr) : pystr := slice_to 50 (slugify t).

Definition episode_dir_of (t : pystr) : pystr :=
  path_join POSTS_DIR (base_slug_of t).

(** The text [create_episode_post] writes for an episode titled [t]. *)
Definition render (t : pystr) (episode : Episode) : pystr :=
  qmd_content_of t (date episode)
    (str "podcast-" ++ base_slug_of t)
    (summary_of (description episode))
    (embed_url_of (episode_id episode))
    (description episode)
    (key_topics_of (description episode)).

Section Renderer.
Variable env : Env.

(** [path.mkdir(parents=True, exist_ok=True)]: refused by the operating
    system, or because a file has that name. *)
Definition mkdir_p (path : pystr) : M unit :=
  fun w =>
    if os_denies env path || bool_decide (is_Some (w_files w !! path))
    then (inl OSError, w)
    else (inr tt, {| w_dirs := {[path]} ∪ w_dirs w; w_files := w_files w;
                     w_state := w_state w; w_log := w_log w;
                     w_time := w_time w |}).

(** [open(path, 'w')] and [write]: the file holds [content] afterwards,
    whatever it held before. *)
Definition write_file (path content : pystr) : M unit :=
  fun w =>
    if os_denies env path || bool_decide (path ∈ w_dirs w)
    then (inl OSError, w)
    else (inr tt, {| w_dirs := w_dirs w;
                     w_files := <[path := content]> (w_files w);
                     w_state := w_state w; w_log := w_log w;
                     w_time := w_time w |}).

(** Lines 170-186. Only a [RequestException] is caught: any other
    exception of [requests.get] leaves [download_image], and
    [create_episode_post] after it. *)
Definition download_image (url filepath : pystr) : M bool :=
  if negb (truthy url) then ret false
  else
    match http_get env url with
    | None =>
      match http_escapes env url with
      | Some cls => raise (Other cls)
      | None => print LogImageWarning ;;; ret false
      end
    | Some content =>
      mkdir_p (path_parent filepath) ;;;
      write_file filepath content ;;;
      print (LogDownloaded filepath) ;;;
      ret true
    end.

(** Lines 189-276. [slugify] of a title that is [None] raises
    [AttributeError]. *)
Definition create_episode_post (episode : Episode) : M pystr :=
  match title episode with
  | None => raise AttributeError
  | Some t =>
    let episode_dir := episode_dir_of t in
    mkdir_p episode_dir ;;;
    has_image <-
      (if truthy (image_url episode)
       then download_image (image_url episode)
              (path_join episode_dir (str "featured.png"))
       else ret false) ;;
    write_file (path_join episode_dir (str "index.qmd")) (render t episode) ;;;
    print (LogCreatedPost (path_join episode_dir (str "index.qmd"))) ;;;
    ret episode_dir
  end.

End Renderer.

(** ** 7. The orchestrator *)

(** The two local variables the loop of [main] updates. *)
Record LoopState := {
  processed : gset pyval;
  new_episodes : list pyval
}.

Section Orchestrator.
Variable env : Env.

(** Lines 40-45. *)
Definition load_state : M StateDict :=
  fun w =>
    (inr (default {| processed_episodes := Some []; last_run := None |}
                  (w_state w)), w).

(** Lines 48-52. *)
Definition save_state (state : StateDict) : M unit :=
  mkdir_p env (path_parent STATE_FILE) ;;;
  fun w =>
    if os_denies env STATE_FILE
    then (inl OSError, w)
    else (inr tt, {| w_dirs := w_dirs w; w_files := w_files w;
                     w_state := Some state; w_log := w_log w;
                     w_time := w_time w |}).

(** Lines 55-75: the [i]-th of [n] addresses and the ones after it. The
    addresses are the two constants of [RSS_FEED_URLS], for which a failed
    request is a [RequestException]. *)
Fixpoint fetch_from (i n : nat) (urls : list pystr) : M Element :=
  match urls with
  | [] =>
    print LogFetchGiveUp ;;; raise (SystemExit 1)
  | url :: urls' =>
    print (LogFetchAttempt i url) ;;;
    match http_get env url with
    | Some content =>
      print (LogFetchOk url) ;;;
      match parse_xml env content with
      | Some root => ret root
      | None => raise ParseError
      end
    | None =>
      print LogFetchFailed ;;;
      (if decide (i < n) then print LogFetchNext else ret tt) ;;;
      fetch_from (S i) n urls'
    end
  end.

Definition fetch_rss_feed : M Element :=
  print LogFetchStart ;;;
  fetch_from 1 (length RSS_FEED_URLS) RSS_FEED_URLS.

(** Lines 306-328: one turn of the loop. *)
Definition process_item (item : Element) (st : LoopState) : M LoopState :=
  episode <- extract_episode_info env item ;;
  if bool_decide (guid episode ∈ processed st) then ret st
  else
    print (LogProcessing (title episode)) ;;;
    print (LogDate (date episode)) ;;;
    print (LogGuid (guid episode)) ;;;
    st' <- try_except
             (episode_dir <- create_episode_post env episode ;;
              let new := new_episodes st ++ [guid episode] in
              let seen := {[guid episode]} ∪ processed st in
              print LogSuccess ;;;
              ret {| processed := seen; new_episodes := new |})
             (fun e =>
                print (LogError e) ;;;
                print (LogTraceback e) ;;;
                ret st) ;;
    print LogBlank ;;;
    ret st'.

(** Lines 305-328. *)
Fixpoint process_items (items : list Element) (st : LoopState)
  : M LoopState :=
  match items with
  | [] => ret st
  | item :: items' =>
    st' <- process_item item st ;;
    process_items items' st'
  end.

Fixpoint print_new_episodes (gs : list pyval) : M unit :=
  match gs with
  | [] => ret tt
  | g :: gs' => print (LogNewEpisode g) ;;; print_new_episodes gs'
  end.

(** Lines 279-345. *)
Definition main : M unit :=
  print LogBanner ;;;
  state <- load_state ;;
  let processed_episodes0 : gset pyval :=
    list_to_set (default [] (processed_episodes state)) in
  print (LogPreviouslyProcessed (size processed_episodes0)) ;;;
  root <- fetch_rss_feed ;;
  match find (str "channel") root with
  | None => print LogNoChannel ;;; raise (SystemExit 1)
  | Some channel =>
    let items := findall (str "item") channel in
    print (LogFound (length items)) ;;;
    st <- process_items items
            {| processed := processed_episodes0; new_episodes := [] |} ;;
    t <- now env ;;
    save_state {| processed_episodes := Some (elements (processed st));
                  last_run := Some t |} ;;;
    print (LogSummary (length (new_episodes st)) (size (processed st))) ;;;
    match new_episodes st with
    | [] => print LogNoNewEpisodes
    | gs => print_new_episodes gs
    end
  end.

End Orchestrator.

(** ** 8. A reference environment

    [datetime.strptime] and [strftime] of CPython 3.11 on Linux, for text
    in the Latin-1 range, the C locale and the local time zone UTC. The
    compiled pattern of a format is matched from the start of the text and
    the whole text must be used up; every numeric field is followed by a
    separator, so a field is the whole run of digits found there. *)

Module RefDatetime.

Definition digit_val (c : ascii) : nat := N.to_nat (code c - 48).

Definition nat_of_digits (ds : pystr) : nat :=
  foldl (fun acc c => 10 * acc + digit_val c) 0 ds.

(** [\s+]. *)
Definition spaces1 (s : pystr) : option pystr :=
  match s with
  | c :: s' => if is_space c then Some (dropwhile is_space s') else None
  | [] => None
  end.

Definition expect (c : ascii) (s : pystr) : option pystr :=
  match s with
  | a :: s' => if Ascii.eqb a c then Some s' else None
  | [] => None
  end.

Fixpoint index_of (x : pystr) (names : list pystr) (i : nat) : option nat :=
  match names with
  | [] => None
  | n :: names' => if bool_decide (x = n) then Some i else index_of x names' (S i)
  end.

(** A name of three letters out of [names], in any case; the result is
    its position, counted from one. *)
Definition name3 (names : list pystr) (s : pystr) : option (nat * pystr) :=
  i ← index_of (lower (take 3 s)) names 1;
  Some (i, drop 3 s).

Definition weekdays : list pystr :=
  [str "mon"; str "tue"; str "wed"; str "thu"; str "fri"; str "sat"; str "sun"].

Definition months : list pystr :=
  [str "jan"; str "feb"; str "mar"; str "apr"; str "may"; str "jun";
   str "jul"; str "aug"; str "sep"; str "oct"; str "nov"; str "dec"].

(** A run of one or two digits with value in [lo1..9] when it has one
    digit and at most [hi2] when it has two. *)
Definition field (lo hi2 : nat) (s : pystr) : option (nat * pystr) :=
  let ds := takewhile is_ascii_digit s in
  let v := nat_of_digits ds in
  let rest := drop (length ds) s in
  match length ds with
  | 1 => if bool_decide (lo <= v) then Some (v, rest) else None
  | 2 => if bool_decide (lo <= v <= hi2) then Some (v, rest) else None
  | _ => None
  end.

(** [%Y]: exactly four digits. *)
Definition year4 (s : pystr) : option (nat * pystr) :=
  let ds := takewhile is_ascii_digit s in
  if bool_decide (length ds = 4)
  then Some (nat_of_digits ds, drop 4 s) else None.

Definition is_leap (y : nat) : bool :=
  (y mod 4 =? 0) && (negb (y mod 100 =? 0) || (y mod 400 =? 0)).

Definition days_in_month (y m : nat) : nat :=
  match m with
  | 2 => if is_leap y then 29 else 28
  | 4 | 6 | 9 | 11 => 30
  | _ => 31
  end.

(** [%Z]: [gmt] or [utc] in any case, and nothing after it. *)
Definition zone_name (s : pystr) : option (option Z) :=
  if bool_decide (lower s = str "gmt") || bool_decide (lower s = str "utc")
  then Some None else None.

Definition two_digits (hi_first : nat) (s : pystr) : option (nat * pystr) :=
  match s with
  | a :: b :: s' =>
    if is_ascii_digit a && is_ascii_digit b
       && bool_decide (digit_val a <= hi_first)
    then Some (10 * digit_val a + digit_val b, s') else None
  | _ => None
  end.

Definition opt_colon (s : pystr) : bool * pystr :=
  match s with
  | c :: s' => if Ascii.eqb c ":"%char then (true, s') else (false, s)
  | [] => (false, s)
  end.

(** The fraction of a second of an offset: a dot and one to six digits. *)
Definition opt_fraction (s : pystr) : pystr :=
  match s with
  | c :: s' =>
    if Ascii.eqb c "."%char then
      match take 6 (takewhile is_ascii_digit s') with
      | [] => s
      | ds => drop (length ds) s'
      end
    else s
  | [] => s
  end.

(** The seconds of an offset, when the text goes on with them. *)
Definition opt_seconds (s : pystr) : option (bool * nat) * pystr :=
  let (colon, s1) := opt_colon s in
  match two_digits 5 s1 with
  | Some (sec, s2) => (Some (colon, sec), opt_fraction s2)
  | None => (None, s)
  end.

(** [%z]: a sign, hours and minutes, perhaps seconds and a fraction of
    a second (dropped here), with colons used throughout or not at all
    once the first one is there; or a capital [Z]. The offset must stay
    below a day. *)
Definition zone_offset (s : pystr) : option (option Z) :=
  if bool_decide (s = str "Z") then Some (Some 0%Z) else
  match s with
  | sign :: s0 =>
    if Ascii.eqb sign "+"%char || Ascii.eqb sign "-"%char then
      '(hh, s1) ← two_digits 9 s0;
      let (colon1, s2) := opt_colon s1 in
      '(mm, s3) ← two_digits 5 s2;
      let '(secs, s4) := opt_seconds s3 in
      let consistent :=
        match secs with
        | Some (colon2, _) => bool_decide (colon1 = colon2)
        | None => true
        end in
      let ss := match secs with Some (_, n) => n | None => 0 end in
      if bool_decide (s4 = []) && consistent && bool_decide (hh <= 23)
      then
        let off := Z.of_nat (hh * 3600 + mm * 60 + ss) in
        Some (Some (if Ascii.eqb sign "-"%char then (- off)%Z else off))
      else None
    else None
  | [] => None
  end.

Definition strptime (s : pystr) (fmt : DateFormat) : option datetime :=
  '(_, s) ← name3 weekdays s;
  s ← expect ","%char s;
  s ← spaces1 s;
  '(d, s) ← field 1 31 s;
  s ← spaces1 s;
  '(m, s) ← name3 months s;
  s ← spaces1 s;
  '(y, s) ← year4 s;
  s ← spaces1 s;
  '(hh, s) ← field 0 23 s;
  s ← expect ":"%char s;
  '(mi, s) ← field 0 59 s;
  s ← expect ":"%char s;
  '(ss, s) ← field 0 61 s;
  s ← spaces1 s;
  tz ← match fmt with
       | FmtNamedZone => zone_name s
       | FmtNumericOffset => zone_offset s
       end;
  if bool_decide (1 <= y) && bool_decide (d <= days_in_month y m)
     && bool_decide (ss <= 59)
  then Some {| dt_year := y; dt_month := m; dt_day := d;
               dt_hour := hh; dt_minute := mi; dt_second := ss;
               dt_utcoffset := tz |}
  else None.

Definition digit_char (n : nat) : ascii := ascii_of_nat (48 + n mod 10).

Definition pad2 (n : nat) : pystr := [digit_char (n / 10); digit_char n].

Fixpoint decimal_aux (fuel n : nat) (acc : pystr) : pystr :=
  match fuel with
  | O => acc
  | S fuel' =>
    if n <? 10 then digit_char n :: acc
    else decimal_aux fuel' (n / 10) (digit_char n :: acc)
  end.

(** [str(n)]. *)
Definition decimal (n : nat) : pystr := decimal_aux (S n) n [].

(** [dt.strftime('%Y-%m-%d')]: the C library does not pad the year. *)
Definition strftime_ymd (dt : datetime) : pystr :=
  decimal (dt_year dt) ++ str "-" ++ pad2 (dt_month dt)
  ++ str "-" ++ pad2 (dt_day dt).

End RefDatetime.

(** An environment for running examples: the reference [datetime], a
    clock stopped at noon on the second of March 2026, a network that
    serves nothing and an operating system that refuses nothing. *)
Definition noon : datetime :=
  {| dt_year := 2026; dt_month := 3; dt_day := 2;
     dt_hour := 12; dt_minute := 0; dt_second := 0; dt_utcoffset := None |}.

Definition quiet_env : Env :=
  {| strptime := RefDatetime.strptime;
     strftime_ymd := RefDatetime.strftime_ymd;
     clock := fun _ => noon;
     http_get := fun _ => None;
     http_escapes := fun _ => None;
     parse_xml := fun _ => None;
     os_denies := fun _ => false |}.

Definition empty_world : World :=
  {| w_dirs := ∅; w_files := ∅; w_state := None; w_log := []; w_time := 0 |}.

(** [<t>s</t>] and [<t/>]. *)
Definition leaf (t : pystr) (s : pyval) : Element := Elem t ∅ s [].

(** ** 9. Vocabulary of the statements *)

(** Letters and digits that are not upper-case. *)
Definition is_lower_alnum (c : ascii) : bool := is_alnum c && negb (is_upper c).

(** What a slug is made of. *)
Definition slug_char (c : ascii) : bool :=
  is_lower_alnum c || Ascii.eqb c underscore || is_hyphen c.

(** What the slug is said to be made of: no underscore. *)
Definition claimed_slug_char (c : ascii) : bool :=
  is_lower_alnum c || is_hyphen c.

(** No two hyphens in a row. *)
Fixpoint no_double_hyphen (s : pystr) : bool :=
  match s with
  | a :: (b :: _) as s' => negb (is_hyphen a && is_hyphen b) && no_double_hyphen s'
  | _ => true
  end.

Definition starts_with_hyphen (s : pystr) : bool :=
  match s with c :: _ => is_hyphen c | [] => false end.

(** [s.rstrip()]. *)
Definition rstrip (s : pystr) : pystr :=
  reverse (dropwhile is_space (reverse s)).

(** An entry with nothing but a description. *)
Definition item_with_description (d : pystr) : Element :=
  Elem (str "item") ∅ None [leaf (str "description") (Some d)].

(** 199 letters, a blank, 50 letters. *)
Definition blank_at_200 : pystr :=
  replicate 199 "a"%char ++ " "%char :: replicate 50 "b"%char.

(** [cut sep s]: the text before and the text after the first occurrence
    of [sep] in [s]. *)
Fixpoint cut (sep s : pystr) : option (pystr * pystr) :=
  match strip_prefix sep s with
  | Some rest => Some ([], rest)
  | None =>
    match s with
    | [] => None
    | c :: s' => prod_map (cons c) id <$> cut sep s'
    end
  end.

(** [until sep s]: [s] up to the first occurrence of [sep], and the whole
    of [s] when there is none. *)
Definition until (sep s : pystr) : pystr :=
  match cut sep s with
  | Some (before, _) => before
  | None => s
  end.

(** An entry with a guid and an enclosure address. *)
Definition item_with_guid_and_enclosure (g url : pystr) : Element :=
  Elem (str "item") ∅ None
    [ leaf (str "guid") (Some g);
      Elem (str "enclosure") {[ str "url" := url ]} None [] ].

(** An entry with a guid only. *)
Definition item_with_guid (g : pystr) : Element :=
  Elem (str "item") ∅ None [leaf (str "guid") (Some g)].

(** A guid with the marker twice. *)
Definition guid_two_markers : pystr :=
  uri_marker ++ str "ABC" ++ uri_marker ++ str "DEF".

(** [<item><title/></item>]: a title element without text. *)
Definition item_empty_title : Element :=
  Elem (str "item") ∅ None [leaf (str "title") None].

(** [<item><pubDate/></item>]: a publication date without text. *)
Definition item_empty_pubDate : Element :=
  Elem (str "item") ∅ None [leaf (str "pubDate") None].

(** [<item><title>T</title><pubDate/></item>]. *)
Definition item_titled_empty_pubDate (t : pystr) : Element :=
  Elem (str "item") ∅ None
    [leaf (str "title") (Some t); leaf (str "pubDate") None].

(** The world after printing [evs]. *)
Definition logged (evs : list LogEvent) (w : World) : World :=
  {| w_dirs := w_dirs w; w_files := w_files w; w_state := w_state w;
     w_log := w_log w ++ evs; w_time := w_time w |}.

(** The world after one more reading of the clock. *)
Definition ticked (w : World) : World :=
  {| w_dirs := w_dirs w; w_files := w_files w; w_state := w_state w;
     w_log := w_log w; w_time := S (w_time w) |}.

(** The two files of the post of an episode titled [t]. *)
Definition index_qmd (t : pystr) : pystr :=
  path_join (episode_dir_of t) (str "index.qmd").

Definition featured_png (t : pystr) : pystr :=
  path_join (episode_dir_of t) (str "featured.png").


(** What [download_image] may print. *)
Definition image_events (url filepath : pystr) (evs : list LogEvent) : Prop :=
  evs = [] \/ evs = [LogImageWarning] \/ evs = [LogDownloaded filepath].

(** An episode as the test script builds one, with a title, a guid and an
    image address of one's choice. *)
Definition episode_titled (t g img : pystr) : Episode :=
  {| title := Some t; date := str "2026-01-15";
     description := str "This is a test episode about data science and machine learning in healthcare.";
     guid := Some g; spotify_url := [];
     episode_id := Some (str "testep123"); image_url := img |}.

(** The image step of [create_episode_post]. *)
Definition image_step (env : Env) (episode : Episode) (t : pystr) : M bool :=
  if truthy (image_url episode)
  then download_image env (image_url episode) (featured_png t)
  else ret false.

(** The three lines printed before an episode is rendered, and the
    lines printed after a failure. *)
Definition announce (ep : Episode) : list LogEvent :=
  [LogProcessing (title ep); LogDate (date ep); LogGuid (guid ep)].

Definition failure_lines (e : exn) : list LogEvent :=
  [LogError e; LogTraceback e; LogBlank].

(** The loop state after [ep] has been recorded. *)
Definition recorded (ep : Episode) (st : LoopState) : LoopState :=
  {| processed := {[guid ep]} ∪ processed st;
     new_episodes := new_episodes st ++ [guid ep] |}.

(** The loop state at the start of a run. *)
Definition initial (P0 : gset pyval) : LoopState :=
  {| processed := P0; new_episodes := [] |}.

(** What holds of the loop state all along a run that started with the
    guids [P0]. *)
Definition loop_inv (P0 : gset pyval) (st : LoopState) : Prop :=
  P0 ⊆ processed st
  /\ (forall g, g ∈ new_episodes st -> g ∈ processed st /\ g ∉ P0)
  /\ NoDup (new_episodes st).

(** An entry with a title and a guid. *)
Definition item_titled (t g : pystr) : Element :=
  Elem (str "item") ∅ None
    [leaf (str "title") (Some t); leaf (str "guid") (Some g)].

(** An environment whose operating system refuses every path for which
    [deny] holds. *)
Definition denying_env (deny : pystr -> bool) : Env :=
  {| strptime := RefDatetime.strptime;
     strftime_ymd := RefDatetime.strftime_ymd;
     clock := fun _ => noon;
     http_get := fun _ => None;
     http_escapes := fun _ => None;
     parse_xml := fun _ => None;
     os_denies := deny |}.

(** The state a computation returned with. *)
Definition state_of (r : (exn + LoopState) * World) : LoopState :=
  match fst r with
  | inr st => st
  | inl _ => initial ∅
  end.

(** Two titles that differ only after the 50th character of their slug. *)
Definition long_title_1 : pystr :=
  str "Data science and machine learning for public health research, part one".

Definition long_title_2 : pystr :=
  str "Data science and machine learning for public health research, part two".

(** The entry of the test script ([create_mock_rss_item]). *)
Definition mock_rss_item : Element :=
  Elem (str "item") ∅ (Some (nl ++ str "        "))
    [ leaf (str "title") (Some (str "Test Episode: Machine Learning in Healthcare"));
      leaf (str "pubDate") (Some (str "Wed, 15 Jan 2026 10:00:00 GMT"));
      leaf (str "description")
        (Some (nl ++ str "            This episode explores the use of machine learning and artificial intelligence "
               ++ nl ++ str "            in healthcare data science and epidemiology. We discuss public health "
               ++ nl ++ str "            applications and infectious disease tracking."
               ++ nl ++ str "        "));
      leaf (str "guid") (Some (str "https://open.spotify.com/episode/test123abc"));
      leaf (str "link") (Some (str "https://open.spotify.com/episode/test123abc"));
      Elem (str "enclosure")
        {[ str "url" := str "https://anchor.fm/s/test/audio/episode/test123abc.mp3";
           str "type" := str "audio/mpeg" ]} None [] ].

(** The episode of the test script ([test_create_episode_post]). *)
Definition test_episode : Episode :=
  {| title := Some (str "Test Episode: Data Science in Healthcare");
     date := str "2026-01-15";
     description := str "This is a test episode about data science and machine learning in healthcare.";
     guid := Some (str "test-guid-12345");
     spotify_url := str "https://open.spotify.com/episode/testep123";
     episode_id := Some (str "testep123");
     image_url := [] |}.

(** A feed whose channel holds the entry of the test script. *)
Definition mock_feed : Element :=
  Elem (str "rss") ∅ None [Elem (str "channel") ∅ None [mock_rss_item]].

(** An environment whose first feed address answers with [mock_feed]. *)
Definition mock_env : Env :=
  {| strptime := RefDatetime.strptime;
     strftime_ymd := RefDatetime.strftime_ymd;
     clock := fun _ => noon;
     http_get := fun url =>
       if bool_decide (Some url = head RSS_FEED_URLS)
       then Some (str "<rss/>") else None;
     http_escapes := fun _ => None;
     parse_xml := fun _ => Some mock_feed;
     os_denies := fun _ => false |}.

(** A tag in the sense of the pattern [<[^>]+>]: a [<], at least one
    character other than [>], and a [>]. *)
Definition holds_tag (s : pystr) : Prop :=
  exists pre mid post,
    s = pre ++ lt_char :: mid ++ gt_char :: post
    /\ mid <> [] /\ gt_char ∉ mid.

(** The same, as a test: no [<] has its first [>] at distance two or more. *)
Fixpoint no_tag (s : pystr) : bool :=
  match s with
  | [] => true
  | c :: s' =>
    (if Ascii.eqb c lt_char
     then match find_gt s' with Some (S _) => false | _ => true end
     else true) && no_tag s'
  end.

Definition dot : ascii := "."%char.

(** [/episode/] followed by an ASCII letter or digit somewhere in [s]. *)
Definition has_episode_segment (s : pystr) : Prop :=
  exists pre c post,
    s = pre ++ episode_path ++ c :: post /\ is_ascii_alnum c = true.

(** The world after [create_episode_post] has written the post of an
    episode titled [t] without an image, having printed [evs] on the way. *)
Definition with_post (t : pystr) (episode : Episode) (evs : list LogEvent)
    (w : World) : World :=
  {| w_dirs := {[episode_dir_of t]} ∪ w_dirs w;
     w_files := <[index_qmd t := render t episode]> (w_files w);
     w_state := w_state w;
     w_log := w_log w ++ evs ++ [LogCreatedPost (index_qmd t)];
     w_time := w_time w |}.

(** The same with the image [content] stored beside the post. *)
Definition with_post_and_image (t : pystr) (episode : Episode)
    (content : pystr) (w : World) : World :=
  {| w_dirs := {[episode_dir_of t]} ∪ w_dirs w;
     w_files := <[index_qmd t := render t episode]>
                  (<[featured_png t := content]> (w_files w));
     w_state := w_state w;
     w_log := w_log w ++ [LogDownloaded (featured_png t);
                          LogCreatedPost (index_qmd t)];
     w_time := w_time w |}.

(** An environment whose network answers every request with [content]. *)
Definition serving_env (content : pystr) : Env :=
  {| strptime := RefDatetime.strptime;
     strftime_ymd := RefDatetime.strftime_ymd;
     clock := fun _ => noon;
     http_get := fun _ => Some content;
     http_escapes := fun _ => None;
     parse_xml := fun _ => None;
     os_denies := fun _ => false |}.

(** The keywords of the vocabulary that occur in a description, whatever
    the case of its letters. *)
Definition occurs_in (descr keyword : pystr) : Prop :=
  keyword ∈ topic_keywords /\ contains keyword (lower descr) = true.

(** The content of the first address that answers. *)
Definition first_answer (env : Env) (urls : list pystr) : option pystr :=
  head (omap (http_get env) urls).

(** Two worlds that differ in the printed lines only. *)
Definition same_but_log (w w' : World) : Prop :=
  w_dirs w' = w_dirs w /\ w_files w' = w_files w
  /\ w_state w' = w_state w /\ w_time w' = w_time w.

(** A publication date element without text. *)
Definition has_empty_pubDate (item : Element) : Prop :=
  exists p, find (str "pubDate") item = Some p /\ text p = None.

(** The guids a state file holds. *)
Definition stored_guids (w : World) : list pyval :=
  match w_state w with
  | Some state => default [] (processed_episodes state)
  | None => []
  end.

(** The loop state after the guid [g] has been recorded. *)
Definition record_guid (g : pyval) (st : LoopState) : LoopState :=
  {| processed := {[g]} ∪ processed st;
     new_episodes := new_episodes st ++ [g] |}.

(** The guids [main] starts from, and the lines of its summary. *)
Definition loaded_guids (w : World) : gset pyval :=
  list_to_set (stored_guids w).

Definition report (st : LoopState) : M unit :=
  (print (LogSummary (length (new_episodes st)) (size (processed st))) ;;;
   match new_episodes st with
   | [] => print LogNoNewEpisodes
   | gs => print_new_episodes gs
   end)%py.

(** The dictionary [main] hands to [save_state]. *)
Definition final_state (st : LoopState) (t : datetime) : StateDict :=
  {| processed_episodes := Some (elements (processed st));
     last_run := Some t |}.

(** The image request of [url] raised an exception that is not a
    [RequestException]: the result is that exception and nothing has
    changed. *)
Definition escaped (env : Env) (url : pystr) (r : exn + bool)
    (w w' : World) : Prop :=
  exists cls, url <> [] /\ http_get env url = None
              /\ http_escapes env url = Some cls
              /\ r = inl (Other cls) /\ w' = w.

(** The episode has no image address, or the request of its image fails
    with a [RequestException]. *)
Definition no_image_to_store (env : Env) (episode : Episode) : Prop :=
  image_url episode = []
  \/ (http_get env (image_url episode) = None
      /\ http_escapes env (image_url episode) = None).



(** [body] is [s] without the white space at its two ends: white space
    only before and after it, none at its first or last place. *)
Definition trimmed (s pre body post : pystr) : Prop :=
  s = pre ++ body ++ post
  /\ Forall (fun c => is_space c = true) pre
  /\ Forall (fun c => is_space c = true) post
  /\ (forall c, head body = Some c -> is_space c = false)
  /\ (forall c, last body = Some c -> is_space c = false).

(** ["..."] for a description of more than 200 characters. *)
Definition ellipsis_of (descr : pystr) : pystr :=
  if bool_decide (200 < length descr) then str "..." else [].


(** The code points of a string of the range U+0000..U+00FF. *)
Definition codes (s : pystr) : ustr := code <$> s.

(** The tables agree, on U+0000..U+00FF, with the classes written out in
    [Py]. *)
Definition agrees_on_latin1 (T : Tables) : Prop :=
  (forall s : pystr, u_lower T (codes s) = codes (lower s))
  /\ (forall c : ascii, u_isalnum T (code c) = is_alnum c)
  /\ (forall c : ascii, u_isspace T (code c) = is_space c).

(** Tables that know the code points up to U+00FF and nothing else. *)
Definition latin1_lower_code (n : N) : N :=
  if (n <? 256)%N then code (lower_char (ascii_of_N n)) else n.

Definition latin1_lower (s : ustr) : ustr := latin1_lower_code <$> s.

Definition latin1 : Tables :=
  {| u_lower := latin1_lower;
     u_isalnum := fun n => (n <? 256)%N && is_alnum (ascii_of_N n);
     u_isspace := fun n => (n <? 256)%N && is_space (ascii_of_N n);
     u_lower_nil := eq_refl |}.

(** The same tables with one letter more: U+03D2, an upper-case letter
    that has no lower-case form, so that [str.lower] leaves it alone. *)
Definition upsilon_hook : N := 978.

Definition latin1_and_upsilon : Tables :=
  {| u_lower := latin1_lower;
     u_isalnum := fun n => (n <? 256)%N && is_alnum (ascii_of_N n)
                           || N.eqb n upsilon_hook;
     u_isspace := fun n => (n <? 256)%N && is_space (ascii_of_N n);
     u_lower_nil := eq_refl |}.

(** What the slug of [text] is made of: hyphens, and word characters of
    the lower-cased text that are not white space. *)
Definition u_slug_char (T : Tables) (text : ustr) (c : N) : Prop :=
  c = u_hyphen
  \/ (u_is_word T c = true /\ u_isspace T c = false /\ c ∈ u_lower T text).

Fixpoint u_no_double_hyphen (s : ustr) : bool :=
  match s with
  | a :: (b :: _) as s' =>
    negb (u_is_hyphen a && u_is_hyphen b) && u_no_double_hyphen s'
  | _ => true
  end.

Definition u_starts_with_hyphen (s : ustr) : bool :=
  match s with c :: _ => u_is_hyphen c | [] => false end.


(* ================================================================== *)
(** * Part II: properties *)

(** *** Facts about the string helpers *)

Section StringFacts.
Variable p : ascii -> bool.

Lemma dropwhile_split (s : pystr) :
  exists pre, s = pre ++ dropwhile p s /\ Forall (fun c => p c = true) pre.
Proof.
  induction s as [|c s IH]; simpl.
  - exists []. split; [reflexivity | constructor].
  - destruct (p c) eqn:Hc.
    + destruct IH as (pre & Heq & Hall).
      exists (c :: pre). split; [simpl; congruence | constructor; assumption].
    + exists []. split; [reflexivity | constructor].
Qed.

Lemma dropwhile_head (s : pystr) (c : ascii) :
  head (dropwhile p s) = Some c -> p c = false.
Proof.
  induction s as [|a s IH]; simpl; [discriminate|].
  destruct (p a) eqn:Ha; [exact IH|].
  simpl. intros [= <-]. exact Ha.
Qed.

Lemma dropwhile_Forall (Q : ascii -> Prop) (s : pystr) :
  Forall Q s -> Forall Q (dropwhile p s).
Proof.
  intros H. destruct (dropwhile_split s) as (pre & Heq & _).
  rewrite Heq in H. apply Forall_app in H. tauto.
Qed.

Lemma dropwhile_last (s : pystr) (c : ascii) :
  last (dropwhile p s) = Some c -> last s = Some c.
Proof.
  destruct (dropwhile_split s) as (pre & Heq & _).
  intros H. rewrite Heq.
  destruct (dropwhile p s) as [|a t] eqn:E; [discriminate|].
  rewrite last_app, H. reflexivity.
Qed.

Lemma strip_class_Forall (Q : ascii -> Prop) (s : pystr) :
  Forall Q s -> Forall Q (strip_class p s).
Proof.
  intros H. unfold strip_class.
  apply Forall_reverse, dropwhile_Forall, Forall_reverse, dropwhile_Forall, H.
Qed.

Lemma strip_class_head (s : pystr) (c : ascii) :
  head (strip_class p s) = Some c -> p c = false.
Proof.
  unfold strip_class. rewrite head_reverse. intros H.
  apply dropwhile_last in H. rewrite last_reverse in H.
  eapply dropwhile_head, H.
Qed.

Lemma strip_class_last (s : pystr) (c : ascii) :
  last (strip_class p s) = Some c -> p c = false.
Proof.
  unfold strip_class. rewrite last_reverse. apply dropwhile_head.
Qed.

(** A string that neither starts nor ends in the class is left alone. *)
Lemma strip_class_id (s : pystr) :
  (forall c, head s = Some c -> p c = false) ->
  (forall c, last s = Some c -> p c = false) ->
  strip_class p s = s.
Proof.
  intros Hh Hl. unfold strip_class.
  assert (E1 : dropwhile p s = s).
  { destruct s as [|a t]; [reflexivity|]. simpl. rewrite (Hh a); reflexivity. }
  rewrite E1.
  assert (E2 : dropwhile p (reverse s) = reverse s).
  { destruct (reverse s) as [|a t] eqn:E; [reflexivity|]. simpl.
    rewrite (Hl a); [reflexivity|].
    rewrite <- (reverse_involutive s), E, last_reverse. reflexivity. }
  rewrite E2. apply reverse_involutive.
Qed.

(** The result is a contiguous piece of the input. *)
Lemma strip_class_infix (s : pystr) :
  exists pre post, s = pre ++ strip_class p s ++ post.
Proof.
  unfold strip_class.
  destruct (dropwhile_split s) as (pre & Heq & _).
  destruct (dropwhile_split (reverse (dropwhile p s))) as (post & Heq' & _).
  exists pre, (reverse post).
  rewrite <- reverse_app, <- Heq', reverse_involutive. exact Heq.
Qed.
End StringFacts.

(** *** The slug generator on the cases of the test script *)

Example slugify_t1 : slugify (str "Test Episode") = str "test-episode".
Proof. reflexivity. Qed.
Example slugify_t2 : slugify (str "Machine Learning & AI") = str "machine-learning-ai".
Proof. reflexivity. Qed.
Example slugify_t4 : slugify (str "   Spaces   Around   ") = str "spaces-around".
Proof. reflexivity. Qed.


(** ** Characters *)

(** Every fact about one character is checked on the 256 of them. *)
Ltac by_cases_on_char c :=
  destruct c as [[] [] [] [] [] [] [] []]; vm_compute; try reflexivity;
  try discriminate; intuition (try discriminate; try reflexivity).

Lemma lower_char_not_upper (c : ascii) : is_upper (lower_char c) = false.
Proof. by_cases_on_char c. Qed.

Lemma kept_not_sep_is_word (c : ascii) :
  keep_slug_input c = true -> is_sep c = false -> is_word c = true.
Proof.
  unfold keep_slug_input, is_sep. fold hyphen.
  destruct (is_word c), (is_space c), (Ascii.eqb c hyphen); simpl; congruence.
Qed.

Lemma not_sep_not_hyphen (c : ascii) : is_sep c = false -> is_hyphen c = false.
Proof. unfold is_sep, is_hyphen. destruct (Ascii.eqb c hyphen); simpl; congruence. Qed.

(** ** The slug generator *)

(** On ASCII the letters and digits that are not upper-case are [a-z0-9]. *)
Lemma is_lower_alnum_ascii (c : ascii) :
  is_lower_alnum c && (code c <? 128)%N = is_ascii_lower c || is_ascii_digit c.
Proof. by_cases_on_char c. Qed.

Lemma no_double_hyphen_cons (a : ascii) (s : pystr) :
  no_double_hyphen (a :: s) =
  negb (is_hyphen a && starts_with_hyphen s) && no_double_hyphen s.
Proof. destruct s as [|b s]; simpl; [rewrite andb_false_r|]; reflexivity. Qed.

Lemma no_double_hyphen_app (s1 s2 : pystr) :
  no_double_hyphen (s1 ++ s2) = true ->
  no_double_hyphen s1 = true /\ no_double_hyphen s2 = true.
Proof.
  induction s1 as [|a s1 IH]; [simpl; auto|].
  change ((a :: s1) ++ s2) with (a :: (s1 ++ s2)).
  rewrite !no_double_hyphen_cons. intros H.
  apply andb_true_iff in H as [H1 H2]. destruct (IH H2) as [IH1 IH2].
  split; [|exact IH2]. rewrite IH1, andb_true_r.
  destruct s1 as [|b s1]; [simpl; rewrite andb_false_r; reflexivity|exact H1].
Qed.

Lemma collapse_aux_shape (b : bool) (s : pystr) :
  no_double_hyphen (collapse_aux b s) = true
  /\ (b = true -> starts_with_hyphen (collapse_aux b s) = false).
Proof.
  revert b. induction s as [|c s IH]; intros b; [simpl; auto|].
  simpl. destruct (is_sep c) eqn:Hc.
  - destruct b.
    + apply IH.
    + destruct (IH true) as [IH1 IH2]. split; [|discriminate].
      rewrite no_double_hyphen_cons, IH1, IH2 by reflexivity.
      rewrite andb_false_r. reflexivity.
  - destruct (IH false) as [IH1 _]. split.
    + rewrite no_double_hyphen_cons, IH1, (not_sep_not_hyphen c Hc). reflexivity.
    + intros _. simpl. apply not_sep_not_hyphen, Hc.
Qed.

Lemma collapse_aux_chars (b : bool) (s : pystr) :
  Forall (fun c => keep_slug_input c = true /\ is_upper c = false) s ->
  Forall (fun c => slug_char c = true) (collapse_aux b s).
Proof.
  intros H. revert b. induction H as [|c s [Hk Hu] _ IH]; intros b; simpl.
  - constructor.
  - assert (Hy : slug_char hyphen = true) by reflexivity.
    destruct (is_sep c) eqn:Hc.
    + destruct b; [apply IH | constructor; [exact Hy | apply IH]].
    + constructor; [|apply IH].
      pose proof (kept_not_sep_is_word c Hk Hc) as Hw.
      unfold slug_char, is_lower_alnum. unfold is_word in Hw.
      rewrite Hu. simpl. rewrite andb_true_r.
      destruct (is_alnum c); simpl in *; [reflexivity|]. rewrite Hw. reflexivity.
Qed.

Lemma slugify_chars (text : pystr) :
  Forall (fun c => slug_char c = true) (slugify text).
Proof.
  unfold slugify. apply strip_class_Forall, collapse_aux_chars.
  unfold sub_strip_symbols, lower.
  apply Forall_forall. intros c Hc.
  apply list_elem_of_filter in Hc as [Hk Hc]. split; [exact Hk|].
  apply list_elem_of_In, in_map_iff in Hc as (c0 & <- & _).
  apply lower_char_not_upper.
Qed.

Lemma slugify_no_double_hyphen (text : pystr) :
  no_double_hyphen (slugify text) = true.
Proof.
  unfold slugify.
  set (t := sub_collapse _).
  destruct (strip_class_infix is_hyphen t) as (pre & post & Heq).
  pose proof (proj1 (collapse_aux_shape false (sub_strip_symbols (lower text)))) as H.
  fold (sub_collapse (sub_strip_symbols (lower text))) in H. fold t in H.
  rewrite Heq in H.
  apply no_double_hyphen_app in H as [_ H].
  apply no_double_hyphen_app in H as [H _]. exact H.
Qed.

(** ** The slug of a [str] of any code points *)

Lemma u_dropwhile_split (p : N -> bool) (s : ustr) :
  exists pre, s = pre ++ u_dropwhile p s /\ Forall (fun c => p c = true) pre.
Proof.
  induction s as [|c s IH]; simpl.
  - exists []. split; [reflexivity | constructor].
  - destruct (p c) eqn:Hc.
    + destruct IH as (pre & Heq & Hall).
      exists (c :: pre). split; [simpl; congruence | constructor; assumption].
    + exists []. split; [reflexivity | constructor].
Qed.

Lemma u_dropwhile_head (p : N -> bool) (s : ustr) (c : N) :
  head (u_dropwhile p s) = Some c -> p c = false.
Proof.
  induction s as [|a s IH]; simpl; [discriminate|].
  destruct (p a) eqn:Ha; [exact IH|].
  simpl. intros [= <-]. exact Ha.
Qed.

Lemma u_dropwhile_last (p : N -> bool) (s : ustr) (c : N) :
  last (u_dropwhile p s) = Some c -> last s = Some c.
Proof.
  destruct (u_dropwhile_split p s) as (pre & Heq & _).
  intros H. rewrite Heq.
  destruct (u_dropwhile p s) as [|a t] eqn:E; [discriminate|].
  rewrite last_app, H. reflexivity.
Qed.

Lemma u_strip_class_head (p : N -> bool) (s : ustr) (c : N) :
  head (u_strip_class p s) = Some c -> p c = false.
Proof.
  unfold u_strip_class. rewrite head_reverse. intros H.
  apply u_dropwhile_last in H. rewrite last_reverse in H.
  eapply u_dropwhile_head, H.
Qed.

Lemma u_strip_class_last (p : N -> bool) (s : ustr) (c : N) :
  last (u_strip_class p s) = Some c -> p c = false.
Proof.
  unfold u_strip_class. rewrite last_reverse. apply u_dropwhile_head.
Qed.

Lemma u_strip_class_infix (p : N -> bool) (s : ustr) :
  exists pre post, s = pre ++ u_strip_class p s ++ post.
Proof.
  unfold u_strip_class.
  destruct (u_dropwhile_split p s) as (pre & Heq & _).
  destruct (u_dropwhile_split p (reverse (u_dropwhile p s)))
    as (post & Heq' & _).
  exists pre, (reverse post).
  rewrite <- reverse_app, <- Heq', reverse_involutive. exact Heq.
Qed.

Lemma u_strip_class_Forall (p : N -> bool) (Q : N -> Prop) (s : ustr) :
  Forall Q s -> Forall Q (u_strip_class p s).
Proof.
  intros H. destruct (u_strip_class_infix p s) as (pre & post & Heq).
  rewrite Heq in H. apply Forall_app in H as [_ H].
  apply Forall_app in H as [H _]. exact H.
Qed.

Lemma u_no_double_hyphen_cons (a : N) (s : ustr) :
  u_no_double_hyphen (a :: s) =
  negb (u_is_hyphen a && u_starts_with_hyphen s) && u_no_double_hyphen s.
Proof. destruct s as [|b s]; simpl; [rewrite andb_false_r|]; reflexivity. Qed.

Lemma u_no_double_hyphen_app (s1 s2 : ustr) :
  u_no_double_hyphen (s1 ++ s2) = true ->
  u_no_double_hyphen s1 = true /\ u_no_double_hyphen s2 = true.
Proof.
  induction s1 as [|a s1 IH]; [simpl; auto|].
  change ((a :: s1) ++ s2) with (a :: (s1 ++ s2)).
  rewrite !u_no_double_hyphen_cons. intros H.
  apply andb_true_iff in H as [H1 H2]. destruct (IH H2) as [IH1 IH2].
  split; [|exact IH2]. rewrite IH1, andb_true_r.
  destruct s1 as [|b s1]; [simpl; rewrite andb_false_r; reflexivity|exact H1].
Qed.

Section UnicodeSlugFacts.
Variable T : Tables.

Lemma u_not_sep_not_hyphen (c : N) :
  u_is_sep T c = false -> u_is_hyphen c = false.
Proof.
  unfold u_is_sep, u_is_hyphen. destruct (N.eqb c u_hyphen); simpl; congruence.
Qed.

Lemma u_kept_not_sep (c : N) :
  u_keep_slug_input T c = true -> u_is_sep T c = false ->
  u_is_word T c = true /\ u_isspace T c = false.
Proof.
  unfold u_keep_slug_input, u_is_sep.
  destruct (u_is_word T c), (u_isspace T c), (N.eqb c u_hyphen);
    simpl; intros; split; congruence.
Qed.

Lemma u_collapse_aux_shape (b : bool) (s : ustr) :
  u_no_double_hyphen (u_collapse_aux T b s) = true
  /\ (b = true -> u_starts_with_hyphen (u_collapse_aux T b s) = false).
Proof.
  revert b. induction s as [|c s IH]; intros b; [simpl; auto|].
  simpl. destruct (u_is_sep T c) eqn:Hc.
  - destruct b.
    + apply IH.
    + destruct (IH true) as [IH1 IH2]. split; [|discriminate].
      rewrite u_no_double_hyphen_cons, IH1, IH2 by reflexivity.
      rewrite andb_false_r. reflexivity.
  - destruct (IH false) as [IH1 _]. split.
    + rewrite u_no_double_hyphen_cons, IH1, (u_not_sep_not_hyphen c Hc).
      reflexivity.
    + intros _. simpl. apply u_not_sep_not_hyphen, Hc.
Qed.

Lemma u_collapse_aux_chars (Q : N -> Prop) (b : bool) (s : ustr) :
  Forall (fun c => u_keep_slug_input T c = true /\ Q c) s ->
  Forall (fun c => c = u_hyphen
                   \/ (u_is_word T c = true /\ u_isspace T c = false /\ Q c))
         (u_collapse_aux T b s).
Proof.
  intros H. revert b. induction H as [|c s [Hk Hq] _ IH]; intros b; simpl.
  - constructor.
  - destruct (u_is_sep T c) eqn:Hc.
    + destruct b; [apply IH | constructor; [left; reflexivity | apply IH]].
    + constructor; [|apply IH]. right.
      destruct (u_kept_not_sep c Hk Hc) as [Hw Hs]. auto.
Qed.

Lemma slugify_u_chars (text : ustr) :
  Forall (u_slug_char T text) (slugify_u T text).
Proof.
  unfold slugify_u, u_slug_char.
  apply u_strip_class_Forall.
  apply (u_collapse_aux_chars (fun c => c ∈ u_lower T text)).
  unfold u_sub_strip_symbols. apply Forall_forall. intros c Hc.
  apply list_elem_of_filter in Hc. exact Hc.
Qed.

Lemma slugify_u_no_double_hyphen (text : ustr) :
  u_no_double_hyphen (slugify_u T text) = true.
Proof.
  unfold slugify_u.
  set (t := u_sub_collapse T _).
  destruct (u_strip_class_infix u_is_hyphen t) as (pre & post & Heq).
  pose proof (proj1 (u_collapse_aux_shape false
                       (u_sub_strip_symbols T (u_lower T text)))) as H.
  fold (u_sub_collapse T (u_sub_strip_symbols T (u_lower T text))) in H.
  fold t in H. rewrite Heq in H.
  apply u_no_double_hyphen_app in H as [_ H].
  apply u_no_double_hyphen_app in H as [H _]. exact H.
Qed.

Lemma slugify_u_nil : slugify_u T [] = [].
Proof. unfold slugify_u. rewrite u_lower_nil. reflexivity. Qed.

(** A letter or digit that [str.lower] leaves alone stays in the slug,
    whatever its case. *)
Lemma slugify_u_keeps_unchanged (c : N) :
  u_lower T [c] = [c] -> u_isalnum T c = true -> u_isspace T c = false ->
  c <> u_hyphen -> slugify_u T [c] = [c].
Proof.
  intros Hl Ha Hs Hh. apply N.eqb_neq in Hh.
  unfold slugify_u, u_sub_strip_symbols, u_sub_collapse. rewrite Hl.
  assert (Hk : u_keep_slug_input T c = true)
    by (unfold u_keep_slug_input, u_is_word; rewrite Ha; reflexivity).
  rewrite filter_cons_True by exact Hk. rewrite filter_nil.
  cbn [u_collapse_aux]. unfold u_is_sep. rewrite Hh, Hs. cbn [orb].
  unfold u_strip_class. cbn [u_dropwhile]. unfold u_is_hyphen. rewrite Hh.
  change (reverse [c]) with [c]. cbn [u_dropwhile]. rewrite Hh. reflexivity.
Qed.

(** *** On U+0000..U+00FF the two models are one *)

Hypothesis HT : agrees_on_latin1 T.

Lemma code_is_hyphen (c : ascii) : u_is_hyphen (code c) = is_hyphen c.
Proof. by_cases_on_char c. Qed.

Lemma code_is_underscore (c : ascii) :
  N.eqb (code c) u_underscore = Ascii.eqb c underscore.
Proof. by_cases_on_char c. Qed.

Lemma code_keep (c : ascii) : u_keep_slug_input T (code c) = keep_slug_input c.
Proof.
  destruct HT as (_ & Ha & Hs).
  unfold u_keep_slug_input, keep_slug_input, u_is_word, is_word.
  rewrite Ha, Hs, code_is_underscore.
  fold (u_is_hyphen (code c)). rewrite code_is_hyphen. reflexivity.
Qed.

Lemma code_is_sep (c : ascii) : u_is_sep T (code c) = is_sep c.
Proof.
  destruct HT as (_ & _ & Hs). unfold u_is_sep, is_sep. rewrite Hs.
  fold (u_is_hyphen (code c)). rewrite code_is_hyphen. reflexivity.
Qed.

Lemma codes_strip_symbols (s : pystr) :
  u_sub_strip_symbols T (codes s) = codes (sub_strip_symbols s).
Proof.
  unfold u_sub_strip_symbols, sub_strip_symbols, codes.
  induction s as [|c s IH]; [reflexivity|].
  rewrite fmap_cons. destruct (keep_slug_input c) eqn:Hc.
  - rewrite !filter_cons_True by (rewrite ?code_keep; exact Hc).
    rewrite fmap_cons, IH. reflexivity.
  - rewrite !filter_cons_False by (rewrite ?code_keep, Hc; discriminate).
    exact IH.
Qed.

Lemma codes_collapse_aux (b : bool) (s : pystr) :
  u_collapse_aux T b (codes s) = codes (collapse_aux b s).
Proof.
  unfold codes. revert b. induction s as [|c s IH]; intros b; [reflexivity|].
  rewrite fmap_cons. cbn [u_collapse_aux collapse_aux].
  rewrite code_is_sep. destruct (is_sep c), b; rewrite ?fmap_cons, IH; reflexivity.
Qed.

Lemma codes_dropwhile (s : pystr) :
  u_dropwhile u_is_hyphen (codes s) = codes (dropwhile is_hyphen s).
Proof.
  unfold codes. induction s as [|c s IH]; [reflexivity|].
  rewrite fmap_cons. cbn [u_dropwhile dropwhile].
  rewrite code_is_hyphen. destruct (is_hyphen c); [exact IH|reflexivity].
Qed.

Lemma codes_strip_class (s : pystr) :
  u_strip_class u_is_hyphen (codes s) = codes (strip_class is_hyphen s).
Proof.
  unfold u_strip_class, strip_class.
  rewrite codes_dropwhile. unfold codes at 1. rewrite <- fmap_reverse.
  fold (codes (reverse (dropwhile is_hyphen s))). rewrite codes_dropwhile.
  unfold codes. rewrite fmap_reverse. reflexivity.
Qed.

Lemma slugify_u_latin1 (s : pystr) :
  slugify_u T (codes s) = codes (slugify s).
Proof.
  unfold slugify_u, slugify, u_sub_collapse, sub_collapse.
  rewrite (proj1 HT), codes_strip_symbols, codes_collapse_aux.
  apply codes_strip_class.
Qed.

End UnicodeSlugFacts.

Lemma latin1_agrees : agrees_on_latin1 latin1.
Proof.
  assert (Hlt : forall c : ascii, (code c <? 256)%N = true)
    by (intros c; by_cases_on_char c).
  split; [|split].
  - intros s. cbn [u_lower latin1]. unfold latin1_lower, codes, lower.
    induction s as [|c s IH]; [reflexivity|].
    rewrite !fmap_cons, IH. f_equal.
    unfold latin1_lower_code. rewrite Hlt. unfold code at 2.
    rewrite ascii_N_embedding. reflexivity.
  - intros c. cbn [u_isalnum latin1]. rewrite Hlt. unfold code.
    rewrite ascii_N_embedding. reflexivity.
  - intros c. cbn [u_isspace latin1]. rewrite Hlt. unfold code.
    rewrite ascii_N_embedding. reflexivity.
Qed.

Lemma latin1_and_upsilon_agrees : agrees_on_latin1 latin1_and_upsilon.
Proof.
  destruct latin1_agrees as (Hl & Ha & Hs).
  split; [exact Hl|split; [|exact Hs]].
  intros c. cbn [u_isalnum latin1_and_upsilon latin1] in *. rewrite Ha.
  assert (H : N.eqb (code c) upsilon_hook = false) by by_cases_on_char c.
  rewrite H. apply orb_false_r.
Qed.

(** With tables that know U+03D2 as a letter without lower-case form, the
    slug of that letter is the letter: an upper-case letter in a slug. *)
Example slugify_u_upsilon :
  slugify_u latin1_and_upsilon [upsilon_hook] = [upsilon_hook].
Proof. apply slugify_u_keeps_unchanged; [reflexivity..|discriminate]. Qed.

(** C6, as stated, at the input [a_b]: the slug keeps the underscore,
    which is neither a lower-case letter, nor a digit, nor a hyphen. *)
Lemma slugify_keeps_underscore :
  slugify (str "a_b") = str "a_b"
  /\ ~ Forall (fun c => claimed_slug_char c = true) (slugify (str "a_b")).
Proof.
  split; [reflexivity|]. intros H.
  apply Forall_cons in H as [_ H]. apply Forall_cons in H as [H _].
  vm_compute in H. discriminate.
Qed.

(** C6, amended: for every input string, the slug is made only of hyphens
    and of word characters of the lower-cased text (letters, digits and
    underscores as [text.lower()] has them, none of them white space); it
    neither starts nor ends with a hyphen and has no two hyphens in a row,
    and the slug of the empty string is the empty string. For a text of
    characters up to U+00FF the slug is what [slugify] of the rest of this
    development computes: it holds only letters and digits that are not
    upper-case, underscores and hyphens, and the slug of
    ["Episode #123: Data Science!"] is ["episode-123-data-science"]. *)
Theorem slugify_shape (T : Tables) (text : ustr) (s : pystr) :
  (Forall (u_slug_char T text) (slugify_u T text)
   /\ head (slugify_u T text) <> Some u_hyphen
   /\ last (slugify_u T text) <> Some u_hyphen
   /\ u_no_double_hyphen (slugify_u T text) = true
   /\ slugify_u T [] = [])
  /\ (agrees_on_latin1 T ->
      slugify_u T (codes s) = codes (slugify s)
      /\ slugify_u T (codes (str "Episode #123: Data Science!"))
         = codes (str "episode-123-data-science"))
  /\ (Forall (fun c => slug_char c = true) (slugify s)
      /\ head (slugify s) <> Some hyphen
      /\ last (slugify s) <> Some hyphen
      /\ no_double_hyphen (slugify s) = true
      /\ slugify (str "Episode #123: Data Science!")
         = str "episode-123-data-science"
      /\ slugify [] = []).
Proof.
  split; [|split].
  - split; [apply slugify_u_chars|].
    split; [|split; [|split;
      [apply slugify_u_no_double_hyphen|apply slugify_u_nil]]].
    + intros H. apply (u_strip_class_head u_is_hyphen) in H. discriminate.
    + intros H. apply (u_strip_class_last u_is_hyphen) in H. discriminate.
  - intros HT. split; [apply slugify_u_latin1, HT|].
    rewrite (slugify_u_latin1 T HT). reflexivity.
  - split; [apply slugify_chars|].
    split; [|split; [|split; [apply slugify_no_double_hyphen|split; reflexivity]]].
    + intros H. apply (strip_class_head is_hyphen) in H. discriminate.
    + intros H. apply (strip_class_last is_hyphen) in H. discriminate.
Qed.

(** Two titles of the test script, with the tables of U+0000..U+00FF. *)
Lemma slugify_shape_witness :
  slugify_u latin1 (codes (str "Episode #123: Data Science!"))
  = codes (str "episode-123-data-science")
  /\ slugify_u latin1 (codes (str "   Spaces   Around   "))
     = codes (str "spaces-around").
Proof.
  destruct (slugify_shape latin1 [] (str "   Spaces   Around   "))
    as (_ & H & _).
  destruct (H latin1_agrees) as [H1 H2]. split; [exact H2|exact H1].
Defined.

(** ** The summary *)

Lemma strip_head_not_space (s : pystr) (c : ascii) :
  head (strip s) = Some c -> is_space c = false.
Proof. apply strip_class_head. Qed.

Lemma strip_last_not_space (s : pystr) (c : ascii) :
  last (strip s) = Some c -> is_space c = false.
Proof. apply strip_class_last. Qed.

Lemma strip_idempotent (s : pystr) : strip (strip s) = strip s.
Proof.
  apply strip_class_id; [apply strip_head_not_space | apply strip_last_not_space].
Qed.

(** Without leading white space, [strip] is [rstrip]. *)
Lemma strip_is_rstrip (s : pystr) :
  (forall c, head s = Some c -> is_space c = false) -> strip s = rstrip s.
Proof.
  intros H. unfold strip, strip_class, rstrip.
  destruct s as [|a t]; [reflexivity|].
  simpl dropwhile at 2. rewrite (H a); reflexivity.
Qed.

Lemma head_take {A} (n : nat) (l : list A) : head (take (S n) l) = head l.
Proof. destruct l; reflexivity. Qed.

Lemma extract_description_cleaned (item : Element) :
  strip (extract_description item) = extract_description item.
Proof. unfold extract_description. apply strip_idempotent. Qed.

Lemma summary_of_long (d : pystr) :
  strip d = d -> 200 < length d ->
  summary_of d = rstrip (take 200 d) ++ str "...".
Proof.
  intros Hd Hlen. unfold summary_of, slice_to.
  rewrite decide_True by exact Hlen. f_equal.
  apply strip_is_rstrip. intros c. rewrite head_take, <- Hd.
  apply strip_head_not_space.
Qed.

Lemma summary_of_short (d : pystr) :
  strip d = d -> length d <= 200 -> summary_of d = d.
Proof.
  intros Hd Hlen. unfold summary_of, slice_to.
  rewrite decide_False by lia. rewrite take_ge by exact Hlen. exact Hd.
Qed.

Lemma rstrip_id (s : pystr) :
  (forall c, last s = Some c -> is_space c = false) -> rstrip s = s.
Proof.
  intros H. unfold rstrip.
  destruct (reverse s) as [|a t] eqn:E; [|simpl; rewrite (H a)].
  - rewrite <- (reverse_involutive s), E. reflexivity.
  - rewrite <- E. apply reverse_involutive.
  - rewrite <- (reverse_involutive s), E, last_reverse. reflexivity.
Qed.

(** C7, as stated, at a description of 250 characters whose 200th is a
    blank: the summary has 199 characters before the ellipsis. *)
Lemma summary_drops_trailing_blank :
  let d := extract_description (item_with_description blank_at_200) in
  length d = 250
  /\ summary_of d <> take 200 d ++ str "..."
  /\ summary_of d = take 199 d ++ str "...".
Proof. vm_compute. split; [reflexivity|split; [discriminate|reflexivity]]. Qed.

(** C7, amended: for the cleaned description of an entry, 250 characters
    long, the summary is the first 200 characters without the white space
    at their end, followed by ["..."], which is the first 200 characters
    and ["..."] when the 200th character is not white space; for one 100
    characters long the summary is the whole description, without
    ellipsis. *)
Theorem summary_truncation (item : Element) :
  let d := extract_description item in
  (length d = 250 ->
     summary_of d = rstrip (take 200 d) ++ str "..."
     /\ (forall c, d !! 199 = Some c -> is_space c = false ->
           summary_of d = take 200 d ++ str "..."))
  /\ (length d = 100 -> summary_of d = d).
Proof.
  intros d. pose proof (extract_description_cleaned item) as Hd. fold d in Hd.
  split.
  - intros Hlen.
    assert (E : summary_of d = rstrip (take 200 d) ++ str "...")
      by (apply summary_of_long; [exact Hd | lia]).
    split; [exact E|].
    intros c Hc Hsp. rewrite E. f_equal. apply rstrip_id.
    intros c'. rewrite last_lookup, length_take, Hlen.
    change (Init.Nat.pred (200 `min` 250)) with 199.
    rewrite lookup_take_lt by lia. rewrite Hc. intros [= <-]. exact Hsp.
  - intros Hlen. apply summary_of_short; [exact Hd | lia].
Qed.

(** A description of 250 letters and one of 100 letters. *)
Lemma summary_truncation_witness :
  let d250 := extract_description (item_with_description (replicate 250 "x"%char)) in
  let d100 := extract_description (item_with_description (replicate 100 "x"%char)) in
  summary_of d250 = replicate 200 "x"%char ++ str "..."
  /\ summary_of d100 = replicate 100 "x"%char.
Proof.
  intros d250 d100.
  pose proof (summary_truncation
                (item_with_description (replicate 250 "x"%char))) as H250.
  pose proof (summary_truncation
                (item_with_description (replicate 100 "x"%char))) as H100.
  cbv zeta in H250, H100. fold d250 in H250. fold d100 in H100.
  destruct H250 as [H250 _]. destruct H100 as [_ H100]. split.
  - destruct (H250 eq_refl) as [_ H]. rewrite (H "x"%char); reflexivity.
  - rewrite (H100 eq_refl). reflexivity.
Defined.

(** ** Searching and splitting *)

Lemma strip_prefix_Some (p s r : pystr) :
  strip_prefix p s = Some r <-> s = p ++ r.
Proof.
  revert s. induction p as [|a p IH]; intros s; simpl.
  - destruct s; split; congruence.
  - destruct s as [|b s]; [split; discriminate|].
    destruct (Ascii.eqb_spec a b) as [->|Hne].
    + rewrite IH. split; [intros ->; reflexivity | intros [= ->]; reflexivity].
    + split; [discriminate | intros [= -> _]; contradiction].
Qed.

Lemma cut_Some (sep s before after : pystr) :
  cut sep s = Some (before, after) -> s = before ++ sep ++ after.
Proof.
  revert before. induction s as [|c s IH]; intros before; simpl.
  - destruct (strip_prefix sep []) eqn:E; [|discriminate].
    intros [= <- <-]. apply strip_prefix_Some in E. exact E.
  - destruct (strip_prefix sep (c :: s)) eqn:E.
    + intros [= <- <-]. apply strip_prefix_Some in E. exact E.
    + destruct (cut sep s) as [[b a]|]; [|discriminate].
      simpl. intros [= <- <-]. rewrite (IH b eq_refl). reflexivity.
Qed.

(** The occurrence [cut] finds is the first one. *)
Lemma cut_first (sep s before after : pystr) :
  sep <> [] -> cut sep s = Some (before, after) ->
  forall n, n < length before -> strip_prefix sep (drop n s) = None.
Proof.
  intros Hsep. revert before. induction s as [|c s IH]; intros before; simpl.
  - destruct (strip_prefix sep []) eqn:E; [|discriminate].
    intros [= <- <-] n Hn. simpl in Hn. lia.
  - destruct (strip_prefix sep (c :: s)) eqn:E.
    + intros [= <- <-] n Hn. simpl in Hn. lia.
    + destruct (cut sep s) as [[b a]|] eqn:Ec; [|discriminate].
      simpl. intros [= <- <-] n Hn. destruct n as [|n]; [exact E|].
      simpl. apply (IH b eq_refl). simpl in Hn. lia.
Qed.

Lemma contains_cut (sep s : pystr) :
  contains sep s = true <-> is_Some (cut sep s).
Proof.
  induction s as [|c s IH]; simpl.
  - destruct (strip_prefix sep []); split; intros H;
      try discriminate; try (eexists; reflexivity); destruct H; discriminate.
  - destruct (strip_prefix sep (c :: s)).
    + split; [intros _; eexists; reflexivity | reflexivity].
    + rewrite IH. destruct (cut sep s) as [[b a]|]; simpl;
        split; intros [x Hx]; try discriminate; eexists; reflexivity.
Qed.

Lemma split_aux_skip (sep : pystr) (k : nat) (cur s : pystr) :
  split_aux sep k cur s = split_aux sep 0 cur (drop k s).
Proof.
  revert k. induction s as [|c s IH]; intros k.
  - destruct k; reflexivity.
  - destruct k as [|k]; [reflexivity|]. simpl. apply IH.
Qed.

Lemma split_aux_cut (sep cur s : pystr) :
  sep <> [] ->
  split_aux sep 0 cur s =
  match cut sep s with
  | Some (before, after) => (reverse cur ++ before) :: split_aux sep 0 [] after
  | None => [reverse cur ++ s]
  end.
Proof.
  intros Hsep. revert cur. induction s as [|c s IH]; intros cur.
  - simpl. destruct (strip_prefix sep []) eqn:E.
    + apply strip_prefix_Some in E. destruct sep; [contradiction|discriminate].
    + rewrite app_nil_r. reflexivity.
  - cbn [split_aux cut]. destruct (strip_prefix sep (c :: s)) as [rest|] eqn:E.
    + rewrite app_nil_r. f_equal. rewrite split_aux_skip. f_equal.
      apply strip_prefix_Some in E.
      destruct sep as [|a sep]; [contradiction|].
      simpl in E. injection E as -> ->. simpl.
      rewrite Nat.sub_0_r, drop_app_length. reflexivity.
    + rewrite IH. destruct (cut sep s) as [[b a]|]; simpl.
      * rewrite reverse_cons, <- app_assoc. reflexivity.
      * rewrite reverse_cons, <- app_assoc. reflexivity.
Qed.

(** [s.split(sep)[1]]: what lies between the first occurrence of [sep]
    and the next one. *)
Lemma split_second (sep s : pystr) :
  sep <> [] ->
  split sep s !! 1 = (fun ba => until sep (snd ba)) <$> cut sep s.
Proof.
  intros Hsep. unfold split. rewrite split_aux_cut by exact Hsep.
  destruct (cut sep s) as [[b a]|]; [|reflexivity].
  simpl. rewrite split_aux_cut by exact Hsep. unfold until.
  destruct (cut sep a) as [[b' a']|]; reflexivity.
Qed.

Lemma takewhile_split (p : ascii -> bool) (s : pystr) :
  s = takewhile p s ++ dropwhile p s.
Proof.
  induction s as [|c s IH]; [reflexivity|]. simpl.
  destruct (p c); [simpl; f_equal; exact IH | reflexivity].
Qed.

Lemma takewhile_Forall (p : ascii -> bool) (s : pystr) :
  Forall (fun c => p c = true) (takewhile p s).
Proof.
  induction s as [|c s IH]; simpl; [constructor|].
  destruct (p c) eqn:E; constructor; assumption.
Qed.

(** What [search_episode] finds: [/episode/], then the identifier, a
    non-empty run of ASCII letters and digits that goes on as far as it
    can; and nothing of that shape starts further left. *)
Lemma search_episode_Some (s id : pystr) :
  search_episode s = Some id ->
  exists pre post,
    s = pre ++ episode_path ++ id ++ post
    /\ id <> []
    /\ Forall (fun c => is_ascii_alnum c = true) id
    /\ (forall c, head post = Some c -> is_ascii_alnum c = false)
    /\ search_episode (pre ++ episode_path) = None.
Proof.
  induction s as [|c s IH]; [discriminate|].
  cbn [search_episode].
  destruct (strip_prefix episode_path (c :: s)) as [rest|] eqn:E.
  - destruct (takewhile is_ascii_alnum rest) as [|a t] eqn:Et.
    + intros H. destruct (IH H) as (pre & post & -> & H1 & H2 & H3 & H4).
      exists (c :: pre), post. repeat split; try assumption.
      change ((c :: pre) ++ episode_path) with (c :: (pre ++ episode_path)).
      cbn [search_episode].
      destruct (strip_prefix episode_path (c :: pre ++ episode_path))
        as [rest'|] eqn:E'; [|exact H4].
      apply strip_prefix_Some in E, E'.
      assert (Hr : takewhile is_ascii_alnum rest' = []).
      { assert (Hp : exists z, rest = rest' ++ z).
        { exists (id ++ post).
          apply (app_inv_head episode_path). rewrite <- E.
          rewrite (app_assoc episode_path rest'), <- E'.
          rewrite <- !app_comm_cons, <- app_assoc. reflexivity. }
        destruct Hp as (z & ->).
        destruct rest' as [|r rest']; [reflexivity|].
        simpl in Et |- *. destruct (is_ascii_alnum r); [discriminate|reflexivity]. }
      rewrite Hr. exact H4.
    + intros [= Hid]. subst id. apply strip_prefix_Some in E.
      exists [], (dropwhile is_ascii_alnum rest).
      split; [|split; [discriminate|split; [|split; [|reflexivity]]]].
      * rewrite E, <- Et, <- takewhile_split. reflexivity.
      * rewrite <- Et. apply takewhile_Forall.
      * apply dropwhile_head.
  - intros H. destruct (IH H) as (pre & post & -> & H1 & H2 & H3 & H4).
    exists (c :: pre), post. repeat split; try assumption.
    change ((c :: pre) ++ episode_path) with (c :: (pre ++ episode_path)).
    cbn [search_episode].
    destruct (strip_prefix episode_path (c :: pre ++ episode_path))
      as [rest'|] eqn:E'; [|exact H4].
    apply strip_prefix_Some in E'.
    assert (Hc : strip_prefix episode_path
                   (c :: pre ++ episode_path ++ id ++ post)
                 = Some (rest' ++ id ++ post)).
    { apply strip_prefix_Some.
      rewrite (app_assoc episode_path rest'), <- E'.
      rewrite <- !app_comm_cons, <- app_assoc. reflexivity. }
    rewrite E in Hc. discriminate.
Qed.

(** Where [/episode/] is followed by an ASCII letter or digit, the search
    finds an identifier. *)
Lemma search_episode_complete (pre post : pystr) (c : ascii) :
  is_ascii_alnum c = true ->
  is_Some (search_episode (pre ++ episode_path ++ c :: post)).
Proof.
  intros Hc. induction pre as [|a pre IH].
  - change ([] ++ episode_path ++ c :: post) with (episode_path ++ c :: post).
    assert (E : strip_prefix episode_path (episode_path ++ c :: post)
                = Some (c :: post)) by (apply strip_prefix_Some; reflexivity).
    remember (episode_path ++ c :: post) as s eqn:Hs.
    destruct s as [|x xs]; [discriminate Hs|].
    cbn [search_episode]. rewrite E. simpl. rewrite Hc. eexists; reflexivity.
  - change ((a :: pre) ++ episode_path ++ c :: post)
      with (a :: (pre ++ episode_path ++ c :: post)).
    cbn [search_episode].
    destruct (strip_prefix episode_path _) as [rest|].
    + destruct (takewhile is_ascii_alnum rest); [exact IH | eexists; reflexivity].
    + exact IH.
Qed.

Lemma search_episode_truthy (s id : pystr) :
  search_episode s = Some id -> truthy id = true.
Proof.
  intros H. apply search_episode_Some in H as (_ & _ & _ & Hne & _).
  destruct id; [contradiction|reflexivity].
Qed.

(** ** The episode identifier *)

Lemma uri_marker_nonempty : uri_marker <> [].
Proof. discriminate. Qed.

Lemma enclosure_episode_id_truthy (item : Element) (id : pystr) :
  enclosure_episode_id item = Some id -> truthy id = true.
Proof.
  unfold enclosure_episode_id. destruct (find _ item); [|discriminate].
  apply search_episode_truthy.
Qed.

Lemma enclosure_episode_id_falsy (item : Element) :
  enclosure_episode_id item = None ->
  truthy_val (enclosure_episode_id item) = false.
Proof. intros ->. reflexivity. Qed.

(** The step that recovers the identifier never raises. *)
Lemma extract_episode_id_value (item : Element) (g : pyval) (w : World) :
  extract_episode_id item g w =
  (inr (match enclosure_episode_id item with
        | Some id => Some id
        | None =>
          if truthy_val g then
            if contains uri_marker (default [] g)
            then (fun ba => until uri_marker (snd ba))
                   <$> cut uri_marker (default [] g)
            else search_episode (default [] g)
          else None
        end), w).
Proof.
  unfold extract_episode_id.
  destruct (enclosure_episode_id item) as [id|] eqn:E.
  - simpl. rewrite (enclosure_episode_id_truthy item id E). reflexivity.
  - simpl. destruct (truthy_val g); [|reflexivity].
    destruct (contains uri_marker (default [] g)) eqn:Hc.
    + rewrite split_second by exact uri_marker_nonempty.
      apply contains_cut in Hc as [[b a] Hc]. rewrite Hc. reflexivity.
    + destruct (search_episode (default [] g)); reflexivity.
Qed.

(** C2, as stated, at a guid that holds the marker twice and no
    enclosure: the identifier is the piece between the two markers, not
    what follows the marker. *)
Lemma episode_id_stops_at_next_marker :
  exists ep w,
    extract_episode_info quiet_env (item_with_guid guid_two_markers) empty_world
      = (inr ep, w)
    /\ guid ep = Some (uri_marker ++ str "ABCspotify:episode:DEF")
    /\ episode_id ep = Some (str "ABC")
    /\ episode_id ep <> Some (str "ABCspotify:episode:DEF").
Proof.
  eexists _, _. split; [reflexivity|].
  split; [reflexivity|]. split; [reflexivity|]. discriminate.
Qed.

(** C2, amended: the identifier of an entry is recovered in a fixed
    order. If the enclosure address has a segment [/episode/<letters and
    digits>], it is that segment, whatever the guid says. Otherwise, for a
    non-empty guid that contains [spotify:episode:], it is the text after
    the first occurrence of that marker up to the next occurrence, or up
    to the end of the guid when there is none; for a non-empty guid
    without the marker it is the segment of the guid after [/episode/]
    when there is one; and in every other case it is null. *)
Theorem episode_id_priority (env : Env) (item : Element) (w w1 : World)
    (d : pystr) :
  extract_date env item w = (inr d, w1) ->
  exists ep,
    extract_episode_info env item w = (inr ep, w1)
    /\ guid ep = extract_guid item
    /\ (forall id, enclosure_episode_id item = Some id ->
          episode_id ep = Some id)
    /\ (enclosure_episode_id item = None ->
        forall gs, guid ep = Some gs -> gs <> [] ->
          (contains uri_marker gs = true ->
             exists before after,
               gs = before ++ uri_marker ++ after
               /\ cut uri_marker gs = Some (before, after)
               /\ episode_id ep = Some (until uri_marker after))
          /\ (contains uri_marker gs = false ->
                episode_id ep = search_episode gs))
    /\ (enclosure_episode_id item = None -> truthy_val (guid ep) = false ->
          episode_id ep = None).
Proof.
  intros Hd. unfold extract_episode_info, bind. rewrite Hd.
  rewrite extract_episode_id_value. eexists. split; [reflexivity|].
  cbn [guid episode_id]. split; [reflexivity|].
  split; [|split].
  - intros id ->. reflexivity.
  - intros -> gs Hg Hne. rewrite Hg.
    assert (Ht : truthy_val (Some gs) = true)
      by (destruct gs; [contradiction|reflexivity]).
    rewrite Ht. change (default [] (Some gs)) with gs.
    split.
    + intros Hc. rewrite Hc.
      destruct (proj1 (contains_cut _ _) Hc) as [[b a] Hcut].
      exists b, a. rewrite Hcut.
      split; [apply cut_Some, Hcut | split; reflexivity].
    + intros ->. reflexivity.
  - intros -> ->. reflexivity.
Qed.

(** The four ways of the priority order on concrete entries. *)
Lemma episode_id_priority_witness :
  (exists ep w1,
     extract_episode_info quiet_env
       (item_with_guid_and_enclosure (str "spotify:episode:ABC")
          (str "https://anchor.fm/s/test/audio/episode/XYZ.mp3"))
       empty_world = (inr ep, w1)
     /\ episode_id ep = Some (str "XYZ"))
  /\ (exists ep w1,
     extract_episode_info quiet_env
       (item_with_guid (str "spotify:episode:ABC")) empty_world = (inr ep, w1)
     /\ episode_id ep = Some (str "ABC"))
  /\ (exists ep w1,
     extract_episode_info quiet_env
       (item_with_guid (str "https://open.spotify.com/episode/test123abc"))
       empty_world = (inr ep, w1)
     /\ episode_id ep = Some (str "test123abc"))
  /\ (exists ep w1,
     extract_episode_info quiet_env (item_with_guid []) empty_world
       = (inr ep, w1)
     /\ episode_id ep = None).
Proof.
  split; [|split; [|split]].
  - destruct (episode_id_priority quiet_env
                (item_with_guid_and_enclosure (str "spotify:episode:ABC")
                   (str "https://anchor.fm/s/test/audio/episode/XYZ.mp3"))
                empty_world _ _ eq_refl) as (ep & He & Hg & H1 & H2 & H3).
    exists ep. eexists. split; [exact He|]. apply H1. reflexivity.
  - destruct (episode_id_priority quiet_env
                (item_with_guid (str "spotify:episode:ABC"))
                empty_world _ _ eq_refl) as (ep & He & Hg & H1 & H2 & H3).
    exists ep. eexists. split; [exact He|].
    destruct (H2 eq_refl (str "spotify:episode:ABC") Hg) as [Hm _];
      [discriminate|].
    destruct (Hm eq_refl) as (b & a & Hs & Hc & Hid).
    rewrite Hid. vm_compute in Hc. injection Hc as <- <-. reflexivity.
  - destruct (episode_id_priority quiet_env
                (item_with_guid (str "https://open.spotify.com/episode/test123abc"))
                empty_world _ _ eq_refl) as (ep & He & Hg & H1 & H2 & H3).
    exists ep. eexists. split; [exact He|].
    destruct (H2 eq_refl _ Hg) as [_ Hm]; [discriminate|].
    rewrite (Hm eq_refl). reflexivity.
  - destruct (episode_id_priority quiet_env (item_with_guid [])
                empty_world _ _ eq_refl) as (ep & He & Hg & H1 & H2 & H3).
    exists ep. eexists. split; [exact He|].
    apply H3; [reflexivity|]. rewrite Hg. reflexivity.
Defined.

(** ** The extractor *)

Lemma extract_date_absent (env : Env) (item : Element) (w : World) :
  find (str "pubDate") item = None ->
  extract_date env item w
  = (inr (strftime_ymd env (clock env (w_time w))), ticked w).
Proof. intros H. unfold extract_date. rewrite H. reflexivity. Qed.

Lemma extract_date_first (env : Env) (item p : Element) (s : pystr)
    (dt : datetime) (w : World) :
  find (str "pubDate") item = Some p -> text p = Some s ->
  strptime env s FmtNamedZone = Some dt ->
  extract_date env item w = (inr (strftime_ymd env dt), w).
Proof. intros H1 H2 H3. unfold extract_date. rewrite H1, H2, H3. reflexivity. Qed.

Lemma extract_date_second (env : Env) (item p : Element) (s : pystr)
    (dt : datetime) (w : World) :
  find (str "pubDate") item = Some p -> text p = Some s ->
  strptime env s FmtNamedZone = None ->
  strptime env s FmtNumericOffset = Some dt ->
  extract_date env item w = (inr (strftime_ymd env dt), w).
Proof.
  intros H1 H2 H3 H4. unfold extract_date. rewrite H1, H2, H3, H4. reflexivity.
Qed.

Lemma extract_date_fallback (env : Env) (item p : Element) (s : pystr)
    (w : World) :
  find (str "pubDate") item = Some p -> text p = Some s ->
  strptime env s FmtNamedZone = None ->
  strptime env s FmtNumericOffset = None ->
  extract_date env item w
  = (inr (strftime_ymd env (clock env (w_time w))), ticked w).
Proof.
  intros H1 H2 H3 H4. unfold extract_date. rewrite H1, H2, H3, H4. reflexivity.
Qed.

Lemma extract_date_empty (env : Env) (item p : Element) (w : World) :
  find (str "pubDate") item = Some p -> text p = None ->
  extract_date env item w = (inl TypeError, w).
Proof. intros H1 H2. unfold extract_date. rewrite H1, H2. reflexivity. Qed.

(** The extractor raises nothing but this [TypeError], and it changes
    nothing but the count of clock readings. *)
Lemma extract_date_cases (env : Env) (item : Element) (w : World) :
  (exists d, extract_date env item w = (inr d, w)
             \/ extract_date env item w = (inr d, ticked w))
  \/ extract_date env item w = (inl TypeError, w).
Proof.
  unfold extract_date.
  destruct (find _ item) as [p|]; [|left; eexists; right; reflexivity].
  destruct (text p) as [s|]; [|right; reflexivity].
  destruct (strptime env s FmtNamedZone); [left; eexists; left; reflexivity|].
  destruct (strptime env s FmtNumericOffset);
    left; eexists; [left|right]; reflexivity.
Qed.

Lemma extract_episode_info_cases (env : Env) (item : Element) (w : World) :
  (exists ep, extract_episode_info env item w = (inr ep, w)
              \/ extract_episode_info env item w = (inr ep, ticked w))
  \/ extract_episode_info env item w = (inl TypeError, w).
Proof.
  unfold extract_episode_info, bind.
  destruct (extract_date_cases env item w) as [[d [H|H]]|H]; rewrite H.
  - rewrite extract_episode_id_value. left. eexists. left. reflexivity.
  - rewrite extract_episode_id_value. left. eexists. right. reflexivity.
  - right. reflexivity.
Qed.

Lemma extract_episode_info_frame (env : Env) (item : Element) (w w' : World)
    (r : exn + Episode) :
  extract_episode_info env item w = (r, w') ->
  w_dirs w' = w_dirs w /\ w_files w' = w_files w
  /\ w_state w' = w_state w /\ w_log w' = w_log w.
Proof.
  intros H.
  destruct (extract_episode_info_cases env item w) as [[ep [E|E]]|E];
    rewrite E in H; injection H as _ <-; repeat split.
Qed.

Lemma extract_title_present (item t : Element) :
  find (str "title") item = Some t -> extract_title item = text t.
Proof. intros H. unfold extract_title. rewrite H. reflexivity. Qed.

Lemma extract_title_absent (item : Element) :
  find (str "title") item = None -> extract_title item = Some untitled.
Proof. intros H. unfold extract_title. rewrite H. reflexivity. Qed.

(** C3 at an entry whose publication date is there without text: the
    date step raises [TypeError], so that no record comes out of the
    extraction, with the current date or any other. *)
Theorem empty_pubDate_has_no_fallback (env : Env) (item p : Element)
    (w : World) :
  find (str "pubDate") item = Some p -> text p = None ->
  extract_date env item w = (inl TypeError, w)
  /\ forall ep w', extract_episode_info env item w <> (inr ep, w').
Proof.
  intros H1 H2. pose proof (extract_date_empty env item p w H1 H2) as E.
  split; [exact E|]. intros ep w'.
  unfold extract_episode_info, bind. rewrite E. discriminate.
Qed.

Lemma empty_pubDate_has_no_fallback_witness :
  extract_date quiet_env (item_titled_empty_pubDate (str "Episode 7"))
    empty_world = (inl TypeError, empty_world)
  /\ forall ep w',
       extract_episode_info quiet_env
         (item_titled_empty_pubDate (str "Episode 7")) empty_world
       <> (inr ep, w').
Proof.
  apply (empty_pubDate_has_no_fallback quiet_env
           (item_titled_empty_pubDate (str "Episode 7"))
           (leaf (str "pubDate") None) empty_world); reflexivity.
Defined.

(** C4 at [<item><pubDate/></item>]: the extraction raises [TypeError]
    in every environment, and the loop of [main], which calls it outside
    the [try], stops there with the entries after it unread. *)
Theorem extraction_raises_on_empty_pubDate (env : Env) (w : World)
    (st : LoopState) (rest : list Element) :
  extract_episode_info env item_empty_pubDate w = (inl TypeError, w)
  /\ process_items env (item_empty_pubDate :: rest) st w = (inl TypeError, w).
Proof. split; reflexivity. Qed.

(** C5 at [<item><title/></item>]: the title of the record is [None],
    not the placeholder, and the renderer raises [AttributeError] on the
    record. *)
Theorem empty_title_is_not_replaced (env : Env) (w : World) :
  exists ep w',
    extract_episode_info env item_empty_title w = (inr ep, w')
    /\ title ep = None
    /\ title ep <> Some untitled
    /\ create_episode_post env ep w' = (inl AttributeError, w').
Proof.
  eexists _, _. split; [reflexivity|].
  split; [reflexivity|]. split; [discriminate|reflexivity].
Qed.

(** ** The renderer *)





Lemma path_join_nonempty (dir seg : pystr) :
  seg <> [] -> path_join dir seg = dir ++ slash :: seg.
Proof. destruct seg; [contradiction|reflexivity]. Qed.

Lemma path_join_inj (dir seg1 seg2 : pystr) :
  seg1 <> [] -> seg2 <> [] ->
  path_join dir seg1 = path_join dir seg2 -> seg1 = seg2.
Proof.
  intros H1 H2. rewrite !path_join_nonempty by assumption.
  intros H. apply app_inv_head in H. congruence.
Qed.

Lemma path_join_longer (dir seg : pystr) :
  seg <> [] -> path_join dir seg <> dir.
Proof.
  intros H. rewrite path_join_nonempty by exact H. intros E.
  apply (f_equal length) in E. rewrite length_app in E. simpl in E. lia.
Qed.

Lemma featured_png_not_index_qmd (t : pystr) : featured_png t <> index_qmd t.
Proof.
  unfold featured_png, index_qmd. intros H.
  apply path_join_inj in H; discriminate.
Qed.

Lemma index_qmd_not_dir (t : pystr) : index_qmd t <> episode_dir_of t.
Proof. apply path_join_longer. discriminate. Qed.

(** The image step: it returns with the files as they were or with the
    image added, or it raises [OSError], or what escaped from the request. *)
Lemma download_image_cases (env : Env) (url filepath : pystr) (w w' : World)
    (r : exn + bool) :
  download_image env url filepath w = (r, w') ->
  (r = inl OSError \/ escaped env url r w w' \/ exists b, r = inr b)
  /\ w_state w' = w_state w /\ w_time w' = w_time w
  /\ (w_files w' = w_files w
      \/ exists content, http_get env url = Some content
                         /\ w_files w' = <[filepath := content]> (w_files w))
  /\ (url = [] \/ http_get env url = None ->
      (r = inr false \/ escaped env url r w w')
      /\ w_files w' = w_files w /\ w_dirs w' = w_dirs w)
  /\ (forall b, r = inr b ->
      exists evs, image_events url filepath evs /\ w_log w' = w_log w ++ evs).
Proof.
  unfold download_image, image_events, escaped.
  destruct url as [|c url]; cbn [truthy negb].
  { intros [= <- <-]. repeat split; eauto.
    intros b _. exists []. rewrite app_nil_r. auto. }
  destruct (http_get env (c :: url)) as [content|] eqn:Hget.
  - unfold bind, mkdir_p, write_file, print, ret.
    repeat case_match; intros ?; simplify_eq; cbn;
      (repeat split; eauto;
       try (match goal with H : _ \/ _ |- _ => destruct H; discriminate end);
       try discriminate;
       try (intros b _; eexists; split; [right; right; reflexivity|reflexivity])).
  - destruct (http_escapes env (c :: url)) as [cls|] eqn:Hesc.
    + unfold raise. intros [= <- <-].
      assert (Hx : exists cls0, (c :: url) <> [] /\ @None pystr = None
                     /\ Some cls = Some cls0
                     /\ @inl exn bool (Other cls) = inl (Other cls0) /\ w = w)
        by (exists cls; repeat split; discriminate).
      repeat split; eauto. discriminate.
    + unfold bind, print, ret. intros [= <- <-]. cbn. repeat split; eauto.
Qed.

Lemma mkdir_p_cases (env : Env) (path : pystr) (w w' : World) (r : exn + unit) :
  mkdir_p env path w = (r, w') ->
  (r = inl OSError /\ w' = w)
  \/ (r = inr tt /\ os_denies env path = false /\ w_files w !! path = None
      /\ w_dirs w' = ({[path]} ∪ w_dirs w) /\ w_files w' = w_files w
      /\ w_state w' = w_state w /\ w_log w' = w_log w /\ w_time w' = w_time w).
Proof.
  unfold mkdir_p.
  destruct (os_denies env path) eqn:Hd; cbn [orb].
  { intros [= <- <-]. left. split; reflexivity. }
  case_bool_decide as Hf.
  - intros [= <- <-]. left. split; reflexivity.
  - intros [= <- <-]. right. cbn. repeat split.
    destruct (w_files w !! path) eqn:E; [|reflexivity].
    exfalso. apply Hf. eexists; reflexivity.
Qed.

Lemma write_file_cases (env : Env) (path content : pystr) (w w' : World)
    (r : exn + unit) :
  write_file env path content w = (r, w') ->
  (r = inl OSError /\ w' = w)
  \/ (r = inr tt /\ os_denies env path = false /\ (path ∉ w_dirs w)
      /\ w_dirs w' = w_dirs w /\ w_files w' = <[path := content]> (w_files w)
      /\ w_state w' = w_state w /\ w_log w' = w_log w /\ w_time w' = w_time w).
Proof.
  unfold write_file.
  destruct (os_denies env path) eqn:Hd; cbn [orb].
  { intros [= <- <-]. left. split; reflexivity. }
  case_bool_decide as Hf.
  - intros [= <- <-]. left. split; reflexivity.
  - intros [= <- <-]. right. cbn. repeat split. exact Hf.
Qed.

Lemma image_step_cases (env : Env) (episode : Episode) (t : pystr)
    (w w' : World) (r : exn + bool) :
  image_step env episode t w = (r, w') ->
  (r = inl OSError \/ escaped env (image_url episode) r w w'
   \/ exists b, r = inr b)
  /\ w_state w' = w_state w /\ w_time w' = w_time w
  /\ (w_files w' = w_files w
      \/ exists content,
           http_get env (image_url episode) = Some content
           /\ w_files w' = <[featured_png t := content]> (w_files w))
  /\ (image_url episode = [] \/ http_get env (image_url episode) = None ->
      (r = inr false \/ escaped env (image_url episode) r w w')
      /\ w_files w' = w_files w /\ w_dirs w' = w_dirs w)
  /\ (forall b, r = inr b ->
      exists evs, image_events (image_url episode) (featured_png t) evs
                  /\ w_log w' = w_log w ++ evs).
Proof.
  unfold image_step. destruct (truthy (image_url episode)) eqn:Ht.
  - apply download_image_cases.
  - intros [= <- <-]. repeat split; eauto.
    intros b _. exists []. rewrite app_nil_r. split; [left; reflexivity|reflexivity].
Qed.

Lemma create_episode_post_unfold (env : Env) (episode : Episode) (t : pystr) :
  title episode = Some t ->
  create_episode_post env episode =
  (mkdir_p env (episode_dir_of t) ;;;
   has_image <- image_step env episode t ;;
   write_file env (index_qmd t) (render t episode) ;;;
   print (LogCreatedPost (index_qmd t)) ;;;
   ret (episode_dir_of t))%py.
Proof. intros H. unfold create_episode_post. rewrite H. reflexivity. Qed.

(** What a call of the renderer that returns has done. *)
Lemma create_episode_post_returns (env : Env) (episode : Episode)
    (w w' : World) (dir : pystr) :
  create_episode_post env episode w = (inr dir, w') ->
  exists t,
    title episode = Some t
    /\ dir = episode_dir_of t
    /\ os_denies env (episode_dir_of t) = false
    /\ os_denies env (index_qmd t) = false
    /\ w_files w !! episode_dir_of t = None
    /\ (exists files1,
          w_files w' = <[index_qmd t := render t episode]> files1
          /\ (files1 = w_files w
              \/ exists content,
                   http_get env (image_url episode) = Some content
                   /\ files1 = <[featured_png t := content]> (w_files w))
          /\ (image_url episode = [] \/ http_get env (image_url episode) = None
              -> files1 = w_files w))
    /\ (exists evs,
          image_events (image_url episode) (featured_png t) evs
          /\ w_log w' = w_log w ++ evs ++ [LogCreatedPost (index_qmd t)])
    /\ w_state w' = w_state w /\ w_time w' = w_time w
    /\ w_files w' !! episode_dir_of t = None
    /\ index_qmd t ∉ w_dirs w'.
Proof.
  destruct (title episode) as [t|] eqn:Ht;
    [|unfold create_episode_post; rewrite Ht; discriminate].
  rewrite (create_episode_post_unfold env episode t Ht). unfold bind.
  destruct (mkdir_p env (episode_dir_of t) w) as [r1 w1] eqn:E1.
  apply mkdir_p_cases in E1
    as [[-> ->]|(-> & Hd & Hf & Hdirs1 & Hfiles1 & Hst1 & Hlog1 & Ht1)];
    [discriminate|].
  destruct (image_step env episode t w1) as [r2 w2] eqn:E2.
  apply image_step_cases in E2 as (Hr2 & Hst2 & Ht2 & Hfiles2 & Hno & Hlog2).
  destruct r2 as [e|b]; [discriminate|].
  destruct (write_file env (index_qmd t) (render t episode) w2) as [r3 w3] eqn:E3.
  apply write_file_cases in E3
    as [[-> ->]|(-> & Hd3 & Hnd & Hdirs3 & Hfiles3 & Hst3 & Hlog3 & Ht3)];
    [discriminate|].
  unfold print, ret. intros [= <- <-]. exists t. cbn.
  split; [reflexivity|]. split; [reflexivity|]. split; [exact Hd|].
  split; [exact Hd3|]. split; [exact Hf|].
  split; [|split; [|split; [|split; [|split]]]].
  - exists (w_files w2). split; [exact Hfiles3|]. rewrite <- Hfiles1. split.
    + exact Hfiles2.
    + intros H. apply Hno in H. tauto.
  - destruct (Hlog2 b eq_refl) as (evs & Hev & Hl). exists evs.
    split; [exact Hev|]. rewrite Hlog3, Hl, Hlog1, <- app_assoc. reflexivity.
  - congruence.
  - congruence.
  - rewrite Hfiles3, lookup_insert_ne by apply index_qmd_not_dir.
    destruct Hfiles2 as [->|(content & _ & ->)].
    + rewrite Hfiles1. exact Hf.
    + rewrite lookup_insert_ne, Hfiles1 by (apply path_join_longer; discriminate).
      exact Hf.
  - rewrite Hdirs3. exact Hnd.
Qed.

(** The renderer raises nothing that is not an [Exception]. *)
Lemma create_episode_post_raises (env : Env) (episode : Episode)
    (w w' : World) (e : exn) :
  create_episode_post env episode w = (inl e, w') -> is_Exception e = true.
Proof.
  destruct (title episode) as [t|] eqn:Ht;
    [|unfold create_episode_post; rewrite Ht; intros [= <- _]; reflexivity].
  rewrite (create_episode_post_unfold env episode t Ht). unfold bind.
  destruct (mkdir_p env (episode_dir_of t) w) as [r1 w1] eqn:E1.
  apply mkdir_p_cases in E1 as [[-> ->]|(-> & _)];
    [intros [= <- _]; reflexivity|].
  destruct (image_step env episode t w1) as [r2 w2] eqn:E2.
  apply image_step_cases in E2 as (Hr2 & _).
  destruct Hr2 as [->|[(cls & _ & _ & _ & -> & _)|[b ->]]];
    [intros [= <- _]; reflexivity|intros [= <- _]; reflexivity|].
  destruct (write_file env (index_qmd t) (render t episode) w2) as [r3 w3] eqn:E3.
  apply write_file_cases in E3 as [[-> ->]|(-> & _)];
    [intros [= <- _]; reflexivity|].
  unfold print, ret. discriminate.
Qed.




(** ** Two titles, one directory *)

(** After a render that returned, a render of an episode with the same
    slug and no image to fetch returns too. *)
Lemma second_render_returns (env : Env) (e1 e2 : Episode) (t1 t2 : pystr)
    (w w1 : World) (d1 : pystr) :
  title e1 = Some t1 -> title e2 = Some t2 ->
  base_slug_of t1 = base_slug_of t2 ->
  create_episode_post env e1 w = (inr d1, w1) ->
  no_image_to_store env e2 ->
  exists w2, create_episode_post env e2 w1 = (inr d1, w2).
Proof.
  intros Ht1 Ht2 Hslug H1 Himg.
  apply create_episode_post_returns in H1
    as (t & Ht & -> & Hd & Hdq & _ & _ & _ & _ & _ & Hfd & Hqd).
  rewrite Ht1 in Ht. injection Ht as <-.
  assert (Edir : episode_dir_of t2 = episode_dir_of t1)
    by (unfold episode_dir_of; rewrite Hslug; reflexivity).
  assert (Eq : index_qmd t2 = index_qmd t1)
    by (unfold index_qmd; rewrite Edir; reflexivity).
  rewrite (create_episode_post_unfold env e2 t2 Ht2), Edir, Eq.
  unfold bind at 1. unfold mkdir_p at 1. rewrite Hd, Hfd.
  rewrite bool_decide_false by (intros [x Hx]; discriminate).
  cbn [orb]. unfold bind at 1.
  match goal with |- context [image_step env e2 t2 ?w] =>
    destruct (image_step env e2 t2 w) as [r2 w2] eqn:E2 end.
  apply image_step_cases in E2 as (_ & _ & _ & _ & Hno & _).
  destruct Hno as (Hr & _ & Hdirs);
    [destruct Himg as [Himg|[Himg _]]; [left|right]; exact Himg|].
  destruct Hr as [->|(cls & Hne & _ & Hesc & _)];
    [|destruct Himg as [Himg|[_ Himg]]; congruence].
  unfold bind at 1. unfold write_file at 1. rewrite Hdq, Hdirs. cbn [w_dirs orb].
  rewrite bool_decide_false.
  - eexists. reflexivity.
  - intros Hin. apply elem_of_union in Hin as [Hin|Hin]; [|exact (Hqd Hin)].
    apply elem_of_singleton in Hin. exact (index_qmd_not_dir t1 Hin).
Qed.

(** C10: the directory of a post is a function of the title alone, the
    slug of the title cut at 50 characters. When two episodes with
    different guids have titles with the same such slug and both are
    rendered, the two calls return the same directory and write the same
    [index.qmd], which holds the text of the first episode after the first
    call and the text of the second after the second call; the second
    call prints nothing but what the image step prints and the line of a
    created post. *)
Theorem same_slug_overwrites (env : Env) (e1 e2 : Episode) (t1 t2 : pystr)
    (w w1 w2 : World) (d1 d2 : pystr) :
  title e1 = Some t1 -> title e2 = Some t2 ->
  guid e1 <> guid e2 ->
  slice_to 50 (slugify t1) = slice_to 50 (slugify t2) ->
  create_episode_post env e1 w = (inr d1, w1) ->
  create_episode_post env e2 w1 = (inr d2, w2) ->
  d1 = path_join POSTS_DIR (slice_to 50 (slugify t1))
  /\ d2 = d1
  /\ index_qmd t2 = index_qmd t1
  /\ w_files w1 !! index_qmd t1 = Some (render t1 e1)
  /\ w_files w2 !! index_qmd t1 = Some (render t2 e2)
  /\ exists evs,
       image_events (image_url e2) (featured_png t2) evs
       /\ w_log w2 = w_log w1 ++ evs ++ [LogCreatedPost (index_qmd t1)].
Proof.
  intros Ht1 Ht2 _ Hslug H1 H2.
  assert (Edir : episode_dir_of t2 = episode_dir_of t1)
    by (unfold episode_dir_of, base_slug_of; rewrite Hslug; reflexivity).
  assert (Eq : index_qmd t2 = index_qmd t1)
    by (unfold index_qmd; rewrite Edir; reflexivity).
  apply create_episode_post_returns in H1
    as (t & Ht & -> & _ & _ & _ & (f1 & Hf1 & _) & _).
  rewrite Ht1 in Ht. injection Ht as <-.
  apply create_episode_post_returns in H2
    as (t & Ht & -> & _ & _ & _ & (f2 & Hf2 & _) & (evs & Hev & Hlog) & _).
  rewrite Ht2 in Ht. injection Ht as <-.
  split; [reflexivity|]. split; [exact Edir|]. split; [exact Eq|].
  split; [rewrite Hf1; apply lookup_insert_eq|].
  split; [rewrite Hf2, Eq; apply lookup_insert_eq|].
  exists evs. split; [exact Hev|]. rewrite Hlog, Eq. reflexivity.
Qed.

(** ** The orchestrator *)

Lemma logged_logged (evs1 evs2 : list LogEvent) (w : World) :
  logged evs2 (logged evs1 w) = logged (evs1 ++ evs2) w.
Proof. unfold logged. cbn. rewrite app_assoc. reflexivity. Qed.

Lemma bind_print {A} (ev : LogEvent) (k : M A) (w : World) :
  bind (print ev) (fun _ => k) w = k (logged [ev] w).
Proof. reflexivity. Qed.

Lemma process_items_app (env : Env) (l1 l2 : list Element) (st : LoopState)
    (w : World) :
  process_items env (l1 ++ l2) st w =
  bind (process_items env l1 st) (process_items env l2) w.
Proof.
  revert st w. induction l1 as [|item l1 IH]; intros st w; [reflexivity|].
  cbn [app process_items]. unfold bind.
  destruct (process_item env item st w) as [[e|st'] w']; [reflexivity|].
  rewrite IH. reflexivity.
Qed.

(** An entry whose guid is in the processed set is passed over. *)
Lemma process_item_skip (env : Env) (item : Element) (st : LoopState)
    (w w1 : World) (ep : Episode) :
  extract_episode_info env item w = (inr ep, w1) ->
  guid ep ∈ processed st ->
  process_item env item st w = (inr st, w1).
Proof.
  intros He Hin. unfold process_item, bind. rewrite He.
  rewrite bool_decide_true by exact Hin. reflexivity.
Qed.

(** An entry with a new guid whose post is rendered is recorded. *)
Lemma process_item_rendered (env : Env) (item : Element) (st : LoopState)
    (w w1 w2 : World) (ep : Episode) (dir : pystr) :
  extract_episode_info env item w = (inr ep, w1) ->
  guid ep ∉ processed st ->
  create_episode_post env ep (logged (announce ep) w1) = (inr dir, w2) ->
  process_item env item st w
  = (inr (recorded ep st), logged [LogSuccess; LogBlank] w2).
Proof.
  intros He Hin Hc. unfold process_item, bind at 1. rewrite He.
  rewrite bool_decide_false by exact Hin.
  rewrite !bind_print, !logged_logged. cbn [app]. fold (announce ep).
  unfold bind at 1. unfold try_except. unfold bind at 1. rewrite Hc.
  cbv [ret print bind logged recorded w_log w_dirs w_files w_state w_time].
  rewrite <- !app_assoc. reflexivity.
Qed.

(** An entry with a new guid whose post cannot be rendered leaves the
    loop state as it was. *)
Lemma process_item_failed (env : Env) (item : Element) (st : LoopState)
    (w w1 w2 : World) (ep : Episode) (e : exn) :
  extract_episode_info env item w = (inr ep, w1) ->
  guid ep ∉ processed st ->
  create_episode_post env ep (logged (announce ep) w1) = (inl e, w2) ->
  process_item env item st w = (inr st, logged (failure_lines e) w2).
Proof.
  intros He Hin Hc. unfold process_item, bind at 1. rewrite He.
  rewrite bool_decide_false by exact Hin.
  rewrite !bind_print, !logged_logged. cbn [app]. fold (announce ep).
  unfold bind at 1. unfold try_except. unfold bind at 1. rewrite Hc.
  rewrite (create_episode_post_raises env ep _ _ e Hc).
  cbv [ret print bind logged failure_lines w_log w_dirs w_files w_state w_time].
  rewrite <- !app_assoc. reflexivity.
Qed.

Lemma process_item_cases (env : Env) (item : Element) (st st' : LoopState)
    (w w' : World) :
  process_item env item st w = (inr st', w') ->
  st' = st
  \/ exists ep, (guid ep ∉ processed st) /\ st' = recorded ep st.
Proof.
  destruct (extract_episode_info env item w) as [[e|ep] w1] eqn:He.
  { unfold process_item, bind. rewrite He. discriminate. }
  destruct (decide (guid ep ∈ processed st)) as [Hin|Hin].
  { rewrite (process_item_skip env item st w w1 ep He Hin).
    intros [= <- _]. left. reflexivity. }
  destruct (create_episode_post env ep (logged (announce ep) w1))
    as [[e|dir] w2] eqn:Hc.
  - rewrite (process_item_failed env item st w w1 w2 ep e He Hin Hc).
    intros [= <- _]. left. reflexivity.
  - rewrite (process_item_rendered env item st w w1 w2 ep dir He Hin Hc).
    intros [= <- _]. right. exists ep. split; [exact Hin|reflexivity].
Qed.

Lemma loop_inv_initial (P0 : gset pyval) : loop_inv P0 (initial P0).
Proof.
  split; [reflexivity|]. split; [|constructor].
  intros g Hg. cbn in Hg. apply not_elem_of_nil in Hg. contradiction.
Qed.

Lemma loop_inv_recorded (P0 : gset pyval) (ep : Episode) (st : LoopState) :
  loop_inv P0 st -> guid ep ∉ processed st -> loop_inv P0 (recorded ep st).
Proof.
  intros (Hsub & Hnew & Hnd) Hin. split; [|split]; cbn.
  - intros g Hg. apply elem_of_union. right. apply Hsub, Hg.
  - intros g Hg. apply elem_of_app in Hg as [Hg|Hg].
    + destruct (Hnew g Hg) as [Hp Hn].
      split; [apply elem_of_union; right; exact Hp | exact Hn].
    + apply list_elem_of_singleton in Hg as ->.
      split; [apply elem_of_union; left; apply elem_of_singleton; reflexivity|].
      intros H0. apply Hin, Hsub, H0.
  - apply NoDup_app. split; [exact Hnd|]. split; [|apply NoDup_singleton].
    intros g Hg Hg'. apply list_elem_of_singleton in Hg' as ->.
    destruct (Hnew _ Hg) as [Hp _]. contradiction.
Qed.

Lemma process_items_inv (env : Env) (P0 : gset pyval) (items : list Element)
    (st st' : LoopState) (w w' : World) :
  loop_inv P0 st ->
  process_items env items st w = (inr st', w') ->
  loop_inv P0 st'.
Proof.
  revert st w. induction items as [|item items IH]; intros st w Hinv.
  - intros [= <- _]. exact Hinv.
  - cbn [process_items]. unfold bind.
    destruct (process_item env item st w) as [[e|st1] w1] eqn:E; [discriminate|].
    apply process_item_cases in E as [->|(ep & Hin & ->)].
    + apply IH, Hinv.
    + apply IH, loop_inv_recorded; assumption.
Qed.

(** C1: in a run that started with the guids [P0], an entry whose guid is
    in [P0], or has been recorded by an earlier entry of the same run, is
    passed over: the turn of the loop for it leaves the processed set and
    the list of new episodes as they were, writes no file, creates no
    directory and prints nothing, and the loop goes on with the entries
    after it from that same state. A guid of [P0] is never in the list of
    new episodes, and no guid is in that list twice. *)
Theorem recorded_guid_is_skipped (env : Env) (P0 : gset pyval)
    (pre : list Element) (item : Element) (st1 : LoopState)
    (w0 w1 w1' : World) (ep : Episode) :
  process_items env pre (initial P0) w0 = (inr st1, w1) ->
  extract_episode_info env item w1 = (inr ep, w1') ->
  guid ep ∈ P0 \/ guid ep ∈ new_episodes st1 ->
  process_item env item st1 w1 = (inr st1, w1')
  /\ w_files w1' = w_files w1 /\ w_dirs w1' = w_dirs w1
  /\ w_log w1' = w_log w1
  /\ (forall rest,
        process_items env (pre ++ item :: rest) (initial P0) w0
        = process_items env rest st1 w1')
  /\ (guid ep ∈ P0 -> guid ep ∉ new_episodes st1)
  /\ NoDup (new_episodes st1).
Proof.
  intros Hpre He Hin.
  destruct (process_items_inv env P0 pre _ _ _ _ (loop_inv_initial P0) Hpre)
    as (Hsub & Hnew & Hnd).
  assert (Hp : guid ep ∈ processed st1).
  { destruct Hin as [Hin|Hin]; [apply Hsub, Hin | apply (Hnew _ Hin)]. }
  pose proof (process_item_skip env item st1 w1 w1' ep He Hp) as Hskip.
  destruct (extract_episode_info_frame env item w1 w1' _ He)
    as (Hdirs & Hfiles & _ & Hlog).
  split; [exact Hskip|]. split; [exact Hfiles|]. split; [exact Hdirs|].
  split; [exact Hlog|]. split; [|split; [|exact Hnd]].
  - intros rest. rewrite process_items_app. unfold bind at 1. rewrite Hpre.
    cbn [process_items]. unfold bind at 1. rewrite Hskip. reflexivity.
  - intros H0 Hn. destruct (Hnew _ Hn) as [_ Hn0]. contradiction.
Qed.

(** A run that starts with [g1] recorded and meets [g2], [g1] and [g2]
    again: the second and third entries are passed over. *)
Lemma recorded_guid_is_skipped_witness :
  let P0 : gset pyval := {[ Some (str "g1") ]} in
  let a := item_titled (str "Episode A") (str "g1") in
  let b := item_titled (str "Episode B") (str "g2") in
  let r := process_items quiet_env [b] (initial P0) empty_world in
  (fst (process_item quiet_env a (state_of r) (snd r)) = inr (state_of r)
   /\ new_episodes (state_of r) = [Some (str "g2")])
  /\ (fst (process_item quiet_env b (state_of r) (snd r)) = inr (state_of r)
   /\ w_log (snd (process_item quiet_env b (state_of r) (snd r)))
      = w_log (snd r)).
Proof.
  intros P0 a b r.
  assert (Hf : fst r = inr (state_of r)) by (vm_compute; reflexivity).
  assert (Hr : r = (inr (state_of r), snd r))
    by (rewrite <- Hf; apply surjective_pairing).
  split.
  - destruct (recorded_guid_is_skipped quiet_env P0 [b] a (state_of r)
                empty_world (snd r)
                (snd (extract_episode_info quiet_env a (snd r)))
                {| title := Some (str "Episode A");
                   date := str "2026-03-02"; description := [];
                   guid := Some (str "g1"); spotify_url := [];
                   episode_id := None; image_url := [] |})
      as (Hs & _).
    + exact Hr.
    + match goal with |- _ = (inr ?e, _) =>
        assert (F : fst (extract_episode_info quiet_env a (snd r)) = inr e)
          by (vm_compute; reflexivity)
      end.
      rewrite <- F. apply surjective_pairing.
    + left. apply elem_of_singleton. reflexivity.
    + rewrite Hs. split; [reflexivity | vm_compute; reflexivity].
  - destruct (recorded_guid_is_skipped quiet_env P0 [b] b (state_of r)
                empty_world (snd r)
                (snd (extract_episode_info quiet_env b (snd r)))
                {| title := Some (str "Episode B");
                   date := str "2026-03-02"; description := [];
                   guid := Some (str "g2"); spotify_url := [];
                   episode_id := None; image_url := [] |})
      as (Hs & _ & _ & Hl & _).
    + exact Hr.
    + match goal with |- _ = (inr ?e, _) =>
        assert (F : fst (extract_episode_info quiet_env b (snd r)) = inr e)
          by (vm_compute; reflexivity)
      end.
      rewrite <- F. apply surjective_pairing.
    + right. vm_compute. apply list_elem_of_here.
    + rewrite Hs. split; [reflexivity | exact Hl].
Defined.

(** C8: when the renderer raises on an entry with a new guid, the turn of
    the loop prints the error and the traceback, leaves the processed set
    and the list of new episodes as they were, and the loop goes on with
    the entries after it. *)
Theorem render_failure_is_contained (env : Env) (item : Element)
    (rest : list Element) (st : LoopState) (w w1 w2 : World) (ep : Episode)
    (e : exn) :
  extract_episode_info env item w = (inr ep, w1) ->
  guid ep ∉ processed st ->
  create_episode_post env ep (logged (announce ep) w1) = (inl e, w2) ->
  process_item env item st w = (inr st, logged (failure_lines e) w2)
  /\ process_items env (item :: rest) st w
     = process_items env rest st (logged (failure_lines e) w2).
Proof.
  intros He Hin Hc.
  pose proof (process_item_failed env item st w w1 w2 ep e He Hin Hc) as H.
  split; [exact H|]. cbn [process_items]. unfold bind. rewrite H. reflexivity.
Qed.

(** The operating system refuses the directory of the first of two
    entries: the first is not recorded, the second is. *)
Lemma render_failure_is_contained_witness :
  let env := denying_env
               (fun p => bool_decide (p = episode_dir_of (str "Episode A"))) in
  let a := item_titled (str "Episode A") (str "g1") in
  let b := item_titled (str "Episode B") (str "g2") in
  fst (process_item env a (initial ∅) empty_world) = inr (initial ∅)
  /\ new_episodes (state_of (process_items env [a; b] (initial ∅) empty_world))
     = [Some (str "g2")]
  /\ last (w_log (snd (process_item env a (initial ∅) empty_world)))
     = Some LogBlank.
Proof.
  intros env a b.
  set (ep := {| title := Some (str "Episode A");
                date := str "2026-03-02"; description := [];
                guid := Some (str "g1"); spotify_url := [];
                episode_id := None; image_url := [] |}).
  destruct (render_failure_is_contained env a [b] (initial ∅) empty_world
              (ticked empty_world)
              (logged (announce ep) (ticked empty_world)) ep OSError)
    as [H1 H2].
  - vm_compute. reflexivity.
  - apply not_elem_of_empty.
  - vm_compute. reflexivity.
  - rewrite H2, H1. split; [reflexivity|]. split; vm_compute; reflexivity.
Defined.

(** Two episodes whose titles differ after the 50th character of the
    slug: one directory, and the text of the second in [index.qmd]. *)
Lemma same_slug_overwrites_witness :
  let e1 := episode_titled long_title_1 (str "guid-1") [] in
  let e2 := episode_titled long_title_2 (str "guid-2") [] in
  let r1 := create_episode_post quiet_env e1 empty_world in
  let r2 := create_episode_post quiet_env e2 (snd r1) in
  fst r1 = fst r2
  /\ fst r2 = inr (str "content/podcasts/posts/data-science-and-machine-learning-for-public-healt")
  /\ w_files (snd r2) !! index_qmd long_title_1 = Some (render long_title_2 e2)
  /\ render long_title_1 e1 <> render long_title_2 e2.
Proof.
  intros e1 e2 r1 r2.
  set (d := str "content/podcasts/posts/data-science-and-machine-learning-for-public-healt").
  assert (F1 : fst r1 = inr d) by (vm_compute; reflexivity).
  assert (F2 : fst r2 = inr d) by (vm_compute; reflexivity).
  assert (E1 : r1 = (inr d, snd r1))
    by (rewrite <- F1; apply surjective_pairing).
  assert (E2 : r2 = (inr d, snd r2))
    by (rewrite <- F2; apply surjective_pairing).
  destruct (same_slug_overwrites quiet_env e1 e2 long_title_1 long_title_2
              empty_world (snd r1) (snd r2) d d eq_refl eq_refl)
    as (_ & _ & _ & _ & H & _).
  - discriminate.
  - vm_compute. reflexivity.
  - exact E1.
  - exact E2.
  - split; [rewrite F1, F2; reflexivity|].
    split; [exact F2|].
    split; [exact H|].
    apply (proj1 (bool_decide_eq_false _)). vm_compute. reflexivity.
Defined.

(** ** The cases of the test script *)

(** [test_extract_episode_info]. *)
Example mock_item_extracted :
  exists ep,
    fst (extract_episode_info quiet_env mock_rss_item empty_world) = inr ep
    /\ title ep = Some (str "Test Episode: Machine Learning in Healthcare")
    /\ date ep = str "2026-01-15"
    /\ contains (str "machine learning") (lower (description ep)) = true
    /\ guid ep = Some (str "https://open.spotify.com/episode/test123abc")
    /\ episode_id ep = Some (str "test123abc").
Proof. eexists. repeat split; vm_compute; reflexivity. Qed.

(** [test_create_episode_post]. *)
Example test_episode_rendered :
  let r := create_episode_post quiet_env test_episode empty_world in
  let qmd := str "content/podcasts/posts/test-episode-data-science-in-healthcare/index.qmd" in
  fst r = inr (str "content/podcasts/posts/test-episode-data-science-in-healthcare")
  /\ exists content,
       w_files (snd r) !! qmd = Some content
       /\ contains (str "title:") content = true
       /\ contains (str "date: '2026-01-15'") content = true
       /\ contains (str "slug: podcast-") content = true
       /\ contains (str "categories:") content = true
       /\ contains (str "summary:") content = true
       /\ contains (str "<iframe") content = true
       /\ contains (str "open.spotify.com/embed/episode/testep123") content = true
       /\ contains (str "## Episode Overview") content = true
       /\ contains (str "## Key Topics Discussed") content = true.
Proof.
  intros r qmd. split; [vm_compute; reflexivity|].
  exists (render (str "Test Episode: Data Science in Healthcare") test_episode).
  repeat split; vm_compute; reflexivity.
Qed.

(** The end-to-end case: one entry in the feed, no state file. The run
    ends normally with one post and the guid of the entry in the state. *)
Example mock_run :
  let r := main mock_env empty_world in
  let g := Some (str "https://open.spotify.com/episode/test123abc") in
  fst r = inr tt
  /\ (processed_episodes <$> w_state (snd r)) = Some (Some [g])
  /\ is_Some (w_files (snd r)
        !! str "content/podcasts/posts/test-episode-machine-learning-in-healthcare/index.qmd")
  /\ size (w_files (snd r)) = 1
  /\ last (w_log (snd r)) = Some (LogNewEpisode g).
Proof.
  intros r g. repeat split; try (vm_compute; reflexivity).
  apply (proj1 (bool_decide_spec _)). vm_compute. reflexivity.
Qed.

(* ================================================================== *)
(** * Part III: further properties of the code *)

(** ** The slug generator, again *)

Lemma slug_char_lower (c : ascii) : slug_char c = true -> lower_char c = c.
Proof. by_cases_on_char c. Qed.

Lemma slug_char_kept (c : ascii) : slug_char c = true -> keep_slug_input c = true.
Proof. by_cases_on_char c. Qed.

Lemma slug_char_sep (c : ascii) : slug_char c = true -> is_sep c = is_hyphen c.
Proof. by_cases_on_char c. Qed.

Lemma lower_fixed (s : pystr) :
  Forall (fun c => slug_char c = true) s -> lower s = s.
Proof.
  unfold lower. induction 1 as [|c s Hc _ IH]; [reflexivity|].
  simpl. rewrite (slug_char_lower c Hc), IH. reflexivity.
Qed.

Lemma sub_strip_symbols_fixed (s : pystr) :
  Forall (fun c => slug_char c = true) s -> sub_strip_symbols s = s.
Proof.
  unfold sub_strip_symbols. induction 1 as [|c s Hc _ IH]; [reflexivity|].
  rewrite filter_cons_True by (apply slug_char_kept, Hc). rewrite IH. reflexivity.
Qed.

Lemma collapse_aux_fixed (b : bool) (s : pystr) :
  Forall (fun c => slug_char c = true) s ->
  no_double_hyphen s = true ->
  (b = true -> starts_with_hyphen s = false) ->
  collapse_aux b s = s.
Proof.
  intros H. revert b. induction H as [|c s Hc _ IH]; intros b Hnd Hb; [reflexivity|].
  rewrite no_double_hyphen_cons in Hnd. apply andb_true_iff in Hnd as [H1 H2].
  cbn [collapse_aux]. rewrite (slug_char_sep c Hc).
  destruct (is_hyphen c) eqn:Hh.
  - destruct b; [simpl in Hb; rewrite Hb in Hh by reflexivity; discriminate|].
    assert (Hc' : c = hyphen) by (apply Ascii.eqb_eq, Hh). subst c.
    f_equal. apply IH; [exact H2|]. intros _.
    simpl in H1. destruct (starts_with_hyphen s); [discriminate|reflexivity].
  - f_equal. apply IH; [exact H2 | discriminate].
Qed.

(** X1: A slug is its own slug. *)
Theorem slugify_idempotent (text : pystr) :
  slugify (slugify text) = slugify text.
Proof.
  pose proof (slugify_chars text) as Hch.
  pose proof (slugify_no_double_hyphen text) as Hnd.
  assert (Hh : head (slugify text) <> Some hyphen)
    by (intros H; apply (strip_class_head is_hyphen) in H; discriminate).
  assert (Hl : last (slugify text) <> Some hyphen)
    by (intros H; apply (strip_class_last is_hyphen) in H; discriminate).
  set (s := slugify text) in *. unfold slugify at 1.
  rewrite (lower_fixed s Hch), (sub_strip_symbols_fixed s Hch).
  unfold sub_collapse. rewrite (collapse_aux_fixed false s Hch Hnd) by discriminate.
  apply strip_class_id.
  - intros c Hc. destruct (is_hyphen c) eqn:E; [|reflexivity].
    apply Ascii.eqb_eq in E. subst c. contradiction.
  - intros c Hc. destruct (is_hyphen c) eqn:E; [|reflexivity].
    apply Ascii.eqb_eq in E. subst c. contradiction.
Qed.

Lemma collapse_aux_length (b : bool) (s : pystr) :
  length (collapse_aux b s) <= length s.
Proof.
  revert b. induction s as [|c s IH]; intros b; [reflexivity|].
  pose proof (IH true) as IHt. pose proof (IH false) as IHf.
  cbn [collapse_aux]. destruct (is_sep c); [destruct b|]; simpl; lia.
Qed.

Lemma strip_class_length (p : ascii -> bool) (s : pystr) :
  length (strip_class p s) <= length s.
Proof.
  destruct (strip_class_infix p s) as (pre & post & E).
  rewrite E at 2. rewrite !length_app. lia.
Qed.

(** X2: A slug is never longer than its text. *)
Theorem slugify_length (text : pystr) : length (slugify text) <= length text.
Proof.
  unfold slugify.
  etransitivity; [apply strip_class_length|].
  etransitivity; [apply collapse_aux_length|].
  unfold sub_strip_symbols.
  etransitivity; [apply length_filter|].
  unfold lower. rewrite length_map. reflexivity.
Qed.

Lemma is_word_lower (c : ascii) : is_word (lower_char c) = is_word c.
Proof. by_cases_on_char c. Qed.

Lemma word_not_sep (c : ascii) : is_word c = true -> is_sep c = false.
Proof. by_cases_on_char c. Qed.

Lemma word_kept (c : ascii) : is_word c = true -> keep_slug_input c = true.
Proof. unfold keep_slug_input. intros ->. reflexivity. Qed.

Lemma kept_not_word_is_sep (c : ascii) :
  keep_slug_input c = true -> is_word c = false -> is_sep c = true.
Proof.
  unfold keep_slug_input, is_sep. fold hyphen. intros H Hw.
  rewrite Hw in H. simpl in H. rewrite orb_comm. exact H.
Qed.

Lemma collapse_aux_keeps_word (b : bool) (s : pystr) (c : ascii) :
  c ∈ s -> is_sep c = false -> c ∈ collapse_aux b s.
Proof.
  intros Hin Hc. revert b. induction s as [|a s IH]; intros b.
  - apply not_elem_of_nil in Hin. contradiction.
  - cbn [collapse_aux]. apply elem_of_cons in Hin as [<-|Hin].
    + rewrite Hc. apply list_elem_of_here.
    + destruct (is_sep a); [destruct b|];
        repeat (apply list_elem_of_further); apply IH, Hin.
Qed.

Lemma dropwhile_keeps (p : ascii -> bool) (s : pystr) (c : ascii) :
  c ∈ s -> p c = false -> c ∈ dropwhile p s.
Proof.
  intros Hin Hc. induction s as [|a s IH].
  - apply not_elem_of_nil in Hin. contradiction.
  - simpl. destruct (p a) eqn:Ha.
    + apply elem_of_cons in Hin as [->|Hin]; [congruence|apply IH, Hin].
    + exact Hin.
Qed.

Lemma strip_class_keeps (p : ascii -> bool) (s : pystr) (c : ascii) :
  c ∈ s -> p c = false -> c ∈ strip_class p s.
Proof.
  intros Hin Hc. unfold strip_class.
  apply elem_of_reverse, dropwhile_keeps; [|exact Hc].
  apply elem_of_reverse, dropwhile_keeps; assumption.
Qed.

Lemma collapse_aux_all_sep (b : bool) (s : pystr) :
  Forall (fun c => is_sep c = true) s ->
  collapse_aux b s = [] \/ collapse_aux b s = [hyphen].
Proof.
  intros H. revert b. induction H as [|c s Hc Hs IH]; intros b; [left; reflexivity|].
  cbn [collapse_aux]. rewrite Hc. destruct b; [apply IH|].
  right. f_equal.
  assert (E : forall t, Forall (fun c => is_sep c = true) t -> collapse_aux true t = []).
  { clear. induction 1 as [|a t Ha _ IHt]; [reflexivity|].
    cbn [collapse_aux]. rewrite Ha. exact IHt. }
  apply E, Hs.
Qed.

(** X3: The slug is empty exactly for a text without any letter, digit or
    underscore. *)
Theorem slugify_empty_iff (text : pystr) :
  slugify text = [] <-> Forall (fun c => is_word c = false) text.
Proof.
  split.
  - intros E. apply Forall_forall. intros c Hc.
    destruct (is_word c) eqn:Hw; [exfalso|reflexivity].
    assert (Hl : lower_char c ∈ slugify text).
    { unfold slugify. apply strip_class_keeps.
      - apply collapse_aux_keeps_word.
        + unfold sub_strip_symbols. apply list_elem_of_filter. split.
          * apply word_kept. rewrite is_word_lower. exact Hw.
          * unfold lower. apply list_elem_of_In, in_map, list_elem_of_In, Hc.
        + apply word_not_sep. rewrite is_word_lower. exact Hw.
      - apply not_sep_not_hyphen, word_not_sep. rewrite is_word_lower. exact Hw. }
    rewrite E in Hl. apply not_elem_of_nil in Hl. exact Hl.
  - intros H. unfold slugify.
    assert (Hs : Forall (fun c => is_sep c = true)
                   (sub_strip_symbols (lower text))).
    { apply Forall_forall. intros c Hc. unfold sub_strip_symbols in Hc.
      apply list_elem_of_filter in Hc as [Hk Hc].
      apply kept_not_word_is_sep; [exact Hk|].
      unfold lower in Hc. apply list_elem_of_In, in_map_iff in Hc as (c0 & <- & Hc0).
      rewrite is_word_lower. apply list_elem_of_In in Hc0.
      rewrite Forall_forall in H. apply H, Hc0. }
    unfold sub_collapse.
    destruct (collapse_aux_all_sep false _ Hs) as [->| ->]; reflexivity.
Qed.

(** ** Where a post goes *)

Lemma slug_char_not_separator (c : ascii) :
  slug_char c = true -> c <> slash /\ c <> dot.
Proof. by_cases_on_char c. Qed.

Lemma base_slug_chars (t : pystr) :
  Forall (fun c => slug_char c = true) (base_slug_of t).
Proof. unfold base_slug_of, slice_to. apply Forall_take, slugify_chars. Qed.

(** X4: The directory of a post is the posts directory itself or a direct
    child of it: a name of 1 to 50 slug characters, none of them a slash
    or a dot. *)
Theorem post_directory_is_contained (t : pystr) :
  episode_dir_of t = POSTS_DIR
  \/ exists seg,
       episode_dir_of t = POSTS_DIR ++ slash :: seg
       /\ 1 <= length seg <= 50
       /\ seg = take 50 (slugify t)
       /\ Forall (fun c => slug_char c = true) seg
       /\ (slash ∉ seg) /\ (dot ∉ seg).
Proof.
  unfold episode_dir_of. pose proof (base_slug_chars t) as Hch.
  assert (Hlen : length (base_slug_of t) <= 50).
  { unfold base_slug_of, slice_to. rewrite length_take. lia. }
  destruct (base_slug_of t) as [|c seg] eqn:E; [left; reflexivity|].
  right. exists (c :: seg). split; [reflexivity|].
  split; [simpl in *; lia|]. split; [symmetry; exact E|].
  split; [exact Hch|].
  rewrite Forall_forall in Hch.
  split; intros Hin; apply Hch, slug_char_not_separator in Hin; tauto.
Qed.

(** ** The cleaned description *)

Lemma find_gt_None (s : pystr) : find_gt s = None <-> gt_char ∉ s.
Proof.
  induction s as [|c s IH]; simpl.
  - split; [intros _; apply not_elem_of_nil | reflexivity].
  - destruct (Ascii.eqb_spec c gt_char) as [->|Hne].
    + split; [discriminate|]. intros H. exfalso. apply H, list_elem_of_here.
    + destruct (find_gt s); simpl.
      * split; [discriminate|]. intros H. exfalso.
        assert (Hs : gt_char ∉ s)
          by (intros Hs; apply H, list_elem_of_further, Hs).
        apply IH in Hs. discriminate.
      * split; [|reflexivity]. intros _ Hin.
        apply elem_of_cons in Hin as [E|Hin]; [congruence|].
        revert Hin. apply IH. reflexivity.
Qed.

Lemma find_gt_app (mid post : pystr) :
  gt_char ∉ mid -> find_gt (mid ++ gt_char :: post) = Some (length mid).
Proof.
  induction mid as [|c mid IH]; intros H; simpl.
  - reflexivity.
  - destruct (Ascii.eqb_spec c gt_char) as [->|Hne].
    + exfalso. apply H, list_elem_of_here.
    + rewrite IH; [reflexivity|]. intros Hin. apply H, list_elem_of_further, Hin.
Qed.

Lemma find_gt_Some (s : pystr) (n : nat) :
  find_gt s = Some n ->
  exists mid post, s = mid ++ gt_char :: post /\ length mid = n /\ gt_char ∉ mid.
Proof.
  revert n. induction s as [|c s IH]; intros n; simpl; [discriminate|].
  destruct (Ascii.eqb_spec c gt_char) as [->|Hne].
  - intros [= <-]. exists [], s. split; [reflexivity|].
    split; [reflexivity|apply not_elem_of_nil].
  - destruct (find_gt s) as [m|]; [|discriminate]. simpl. intros [= <-].
    destruct (IH m eq_refl) as (mid & post & -> & Hl & Hn).
    exists (c :: mid), post. split; [reflexivity|]. split; [simpl; congruence|].
    intros Hin. apply elem_of_cons in Hin as [E|Hin]; [congruence|contradiction].
Qed.

Lemma no_tag_spec (s : pystr) : no_tag s = true <-> ~ holds_tag s.
Proof.
  split.
  - intros H (pre & mid & post & -> & Hmid & Hgt).
    induction pre as [|c pre IH].
    + change ([] ++ lt_char :: mid ++ gt_char :: post)
        with (lt_char :: (mid ++ gt_char :: post)) in H.
      cbn [no_tag] in H.
      rewrite Ascii.eqb_refl, (find_gt_app mid post Hgt) in H.
      destruct mid; [contradiction|discriminate].
    + change ((c :: pre) ++ lt_char :: mid ++ gt_char :: post)
        with (c :: (pre ++ lt_char :: mid ++ gt_char :: post)) in H.
      cbn [no_tag] in H. apply andb_true_iff in H as [_ H]. apply IH, H.
  - induction s as [|c s IH]; intros H; [reflexivity|].
    simpl. apply andb_true_iff. split.
    + destruct (Ascii.eqb_spec c lt_char) as [->|Hne]; [|reflexivity].
      destruct (find_gt s) as [[|n]|] eqn:E; try reflexivity.
      exfalso. apply H.
      destruct (find_gt_Some s (S n) E) as (mid & post & -> & Hl & Hn).
      exists [], mid, post. split; [reflexivity|]. split; [|exact Hn].
      destruct mid; [discriminate|discriminate].
    + apply IH. intros (pre & mid & post & -> & Hmid & Hgt). apply H.
      exists (c :: pre), mid, post. split; [reflexivity|]. split; assumption.
Qed.

Lemma strip_tags_aux_subset (k : nat) (s : pystr) (x : ascii) :
  x ∈ strip_tags_aux k s -> x ∈ s.
Proof.
  revert k. induction s as [|c s IH]; intros k; [simpl; trivial|].
  cbn [strip_tags_aux]. destruct k as [|k].
  - destruct (Ascii.eqb c lt_char).
    + destruct (find_gt s) as [[|n]|].
      * intros H. apply elem_of_cons in H as [->|H];
          [apply list_elem_of_here | apply list_elem_of_further, (IH 0), H].
      * intros H. apply list_elem_of_further, (IH _ H).
      * intros H. apply elem_of_cons in H as [->|H];
          [apply list_elem_of_here | apply list_elem_of_further, (IH 0), H].
    + intros H. apply elem_of_cons in H as [->|H];
        [apply list_elem_of_here | apply list_elem_of_further, (IH 0), H].
  - intros H. apply list_elem_of_further, (IH _ H).
Qed.

Lemma strip_tags_aux_no_tag (k : nat) (s : pystr) :
  no_tag (strip_tags_aux k s) = true.
Proof.
  revert k. induction s as [|c s IH]; intros k; [reflexivity|].
  cbn [strip_tags_aux]. destruct k as [|k]; [|apply IH].
  destruct (Ascii.eqb c lt_char) eqn:Hc.
  - destruct (find_gt s) as [[|n]|] eqn:E.
    + cbn [no_tag]. rewrite Hc, IH, andb_true_r.
      destruct s as [|a s]; [discriminate|]. simpl in E.
      destruct (Ascii.eqb a gt_char) eqn:Ha;
        [|destruct (find_gt s); discriminate].
      cbn [strip_tags_aux].
      assert (Hne : Ascii.eqb a lt_char = false).
      { apply Ascii.eqb_eq in Ha. subst a. reflexivity. }
      rewrite Hne. simpl. rewrite Ha. reflexivity.
    + apply IH.
    + cbn [no_tag]. rewrite Hc, IH, andb_true_r.
      assert (Hn : find_gt (strip_tags_aux 0 s) = None).
      { apply find_gt_None. intros Hin. apply strip_tags_aux_subset in Hin.
        revert Hin. apply find_gt_None, E. }
      rewrite Hn. reflexivity.
  - cbn [no_tag]. rewrite Hc, IH. reflexivity.
Qed.

Lemma strip_tags_aux_fixed (s : pystr) :
  no_tag s = true -> strip_tags_aux 0 s = s.
Proof.
  induction s as [|c s IH]; [reflexivity|]. simpl.
  intros H. apply andb_true_iff in H as [Hc Hs].
  destruct (Ascii.eqb c lt_char).
  - destruct (find_gt s) as [[|n]|]; try discriminate; rewrite IH by exact Hs;
      reflexivity.
  - rewrite IH by exact Hs. reflexivity.
Qed.

(** X5: Removing the tags leaves no tag behind, and it changes exactly the
    texts that hold one. *)
Theorem strip_tags_fixed_iff (s : pystr) :
  ~ holds_tag (strip_tags s) /\ (strip_tags s = s <-> ~ holds_tag s).
Proof.
  assert (H : ~ holds_tag (strip_tags s))
    by (apply no_tag_spec, strip_tags_aux_no_tag).
  split; [exact H|]. split.
  - intros E. rewrite <- E. exact H.
  - intros Hn. apply strip_tags_aux_fixed, no_tag_spec, Hn.
Qed.

(** X6: The description of an extracted episode holds no tag and has no
    white space at either end. *)
Theorem description_is_clean (item : Element) :
  ~ holds_tag (extract_description item)
  /\ (forall c, head (extract_description item) = Some c -> is_space c = false)
  /\ (forall c, last (extract_description item) = Some c -> is_space c = false).
Proof.
  unfold extract_description.
  set (raw := match find (str "description") item with
              | Some d => default [] (text d)
              | None => _ end).
  split; [|split; [apply strip_head_not_space | apply strip_last_not_space]].
  intros (pre & mid & post & E & Hmid & Hgt).
  destruct (strip_class_infix is_space (strip_tags raw)) as (p1 & p2 & E').
  fold (strip (strip_tags raw)) in E'. rewrite E in E'.
  apply (proj1 (no_tag_spec _) (strip_tags_aux_no_tag 0 raw)).
  exists (p1 ++ pre), mid, (post ++ p2). split; [|split; assumption].
  unfold strip_tags in E'. rewrite E'. rewrite <- !app_assoc. simpl.
  rewrite <- !app_assoc. reflexivity.
Qed.

(** ** When the extraction fails *)

(** X7: The extraction raises in one case only, a publication date without
    text, and then it raises [TypeError] and leaves the world as it was;
    in particular the [split(...)[1]] of the guid never raises. *)
Theorem extraction_fails_iff (env : Env) (item : Element) (w w' : World)
    (e : exn) :
  extract_episode_info env item w = (inl e, w')
  <-> e = TypeError /\ w' = w
      /\ exists p, find (str "pubDate") item = Some p /\ text p = None.
Proof.
  split.
  - intros H. unfold extract_episode_info, bind in H.
    unfold extract_date, today, now, bind, ret, raise in H.
    destruct (find (str "pubDate") item) as [p|] eqn:Hp.
    + destruct (text p) as [s|] eqn:Ht.
      * destruct (strptime env s FmtNamedZone);
          [|destruct (strptime env s FmtNumericOffset)];
          rewrite extract_episode_id_value in H; discriminate.
      * injection H as <- <-. split; [reflexivity|]. split; [reflexivity|].
        exists p. split; [reflexivity|exact Ht].
    + rewrite extract_episode_id_value in H. discriminate.
  - intros (-> & -> & p & Hp & Ht).
    unfold extract_episode_info, bind.
    rewrite (extract_date_empty env item p w Hp Ht). reflexivity.
Qed.

(** ** The identifier pattern *)

Lemma takewhile_app (p : ascii -> bool) (s post : pystr) :
  Forall (fun c => p c = true) s ->
  (forall c, head post = Some c -> p c = false) ->
  takewhile p (s ++ post) = s.
Proof.
  intros H Hpost. induction H as [|c s Hc _ IH]; simpl.
  - destruct post as [|a post]; [reflexivity|]. simpl.
    rewrite (Hpost a eq_refl). reflexivity.
  - rewrite Hc, IH. reflexivity.
Qed.

Lemma strip_prefix_app (p a b : pystr) :
  length p <= length a ->
  strip_prefix p (a ++ b) = (fun r => r ++ b) <$> strip_prefix p a.
Proof.
  revert a. induction p as [|x p IH]; intros a Hlen.
  - destruct a; reflexivity.
  - destruct a as [|y a]; [simpl in Hlen; lia|].
    simpl. destruct (Ascii.eqb x y); [|reflexivity].
    apply IH. simpl in Hlen. lia.
Qed.

Lemma search_episode_cons (c : ascii) (s : pystr) :
  search_episode (c :: s) =
  match strip_prefix episode_path (c :: s) with
  | Some rest =>
    match takewhile is_ascii_alnum rest with
    | [] => search_episode s
    | id => Some id
    end
  | None => search_episode s
  end.
Proof. reflexivity. Qed.

Lemma search_episode_leftmost (pre id post : pystr) :
  id <> [] ->
  Forall (fun c => is_ascii_alnum c = true) id ->
  (forall c, head post = Some c -> is_ascii_alnum c = false) ->
  search_episode (pre ++ episode_path) = None ->
  search_episode (pre ++ episode_path ++ id ++ post) = Some id.
Proof.
  intros Hne Hid Hpost. induction pre as [|c pre IH]; intros Hnone.
  - change ([] ++ episode_path ++ id ++ post)
      with ("/"%char :: (tail episode_path ++ id ++ post)).
    rewrite search_episode_cons.
    change ("/"%char :: (tail episode_path ++ id ++ post))
      with (episode_path ++ id ++ post).
    rewrite (proj2 (strip_prefix_Some episode_path _ (id ++ post)) eq_refl).
    rewrite (takewhile_app _ id post Hid Hpost).
    destruct id; [contradiction|reflexivity].
  - change ((c :: pre) ++ episode_path ++ id ++ post)
      with (c :: (pre ++ episode_path ++ id ++ post)).
    change ((c :: pre) ++ episode_path) with (c :: (pre ++ episode_path)) in Hnone.
    rewrite search_episode_cons in Hnone |- *.
    assert (E : strip_prefix episode_path (c :: pre ++ episode_path ++ id ++ post)
                = (fun r => r ++ id ++ post)
                    <$> strip_prefix episode_path (c :: pre ++ episode_path)).
    { rewrite <- strip_prefix_app.
      - f_equal. simpl. rewrite <- app_assoc. reflexivity.
      - simpl. rewrite length_app. simpl. lia. }
    rewrite E.
    destruct (strip_prefix episode_path (c :: pre ++ episode_path))
      as [rest'|] eqn:E'; simpl.
    + destruct (takewhile is_ascii_alnum rest') as [|a t] eqn:Et; [|discriminate].
      assert (Hr : takewhile is_ascii_alnum (rest' ++ id ++ post) = []).
      { destruct rest' as [|r rest'].
        - apply strip_prefix_Some in E'. apply (f_equal length) in E'.
          rewrite app_nil_r in E'. simpl in E'. rewrite length_app in E'.
          simpl in E'. lia.
        - simpl in Et |- *. destruct (is_ascii_alnum r); [discriminate|reflexivity]. }
      rewrite Hr. apply IH, Hnone.
    + apply IH, Hnone.
Qed.

Lemma search_episode_None (s : pystr) :
  search_episode s = None <-> ~ has_episode_segment s.
Proof.
  split.
  - intros H (pre & c & post & -> & Hc).
    destruct (search_episode_complete pre post c Hc) as [id Hid]. congruence.
  - intros H. destruct (search_episode s) as [id|] eqn:E; [|reflexivity].
    exfalso. apply H.
    apply search_episode_Some in E as (pre & post & -> & Hne & Hid & _).
    destruct id as [|c id]; [contradiction|].
    exists pre, c, (id ++ post). split; [reflexivity|].
    apply Forall_cons in Hid as [Hc _]. exact Hc.
Qed.

(** X8: What [re.search(r'/episode/([a-zA-Z0-9]+)', s)] gives: the run of
    ASCII letters and digits, taken as long as it goes, behind the
    leftmost [/episode/] that has one behind it; and nothing when no
    [/episode/] has one. *)
Theorem search_episode_spec (s : pystr) :
  (forall id,
     search_episode s = Some id
     <-> exists pre post,
           s = pre ++ episode_path ++ id ++ post
           /\ id <> []
           /\ Forall (fun c => is_ascii_alnum c = true) id
           /\ (forall c, head post = Some c -> is_ascii_alnum c = false)
           /\ ~ has_episode_segment (pre ++ episode_path))
  /\ (search_episode s = None <-> ~ has_episode_segment s).
Proof.
  split; [|apply search_episode_None]. intros id. split.
  - intros H. apply search_episode_Some in H
      as (pre & post & -> & Hne & Hid & Hpost & Hleft).
    exists pre, post. repeat split; try assumption.
    apply search_episode_None, Hleft.
  - intros (pre & post & -> & Hne & Hid & Hpost & Hleft).
    apply search_episode_leftmost; try assumption.
    apply search_episode_None, Hleft.
Qed.

(** ** What a render leaves behind *)

Lemma dropwhile_app_all (p : ascii -> bool) (s1 s2 : pystr) :
  Forall (fun c => p c = true) s1 -> dropwhile p (s1 ++ s2) = dropwhile p s2.
Proof.
  induction 1 as [|c s1 Hc _ IH]; [reflexivity|]. simpl. rewrite Hc. exact IH.
Qed.

Lemma path_parent_join (dir seg : pystr) :
  seg <> [] -> slash ∉ seg -> path_parent (path_join dir seg) = dir.
Proof.
  intros Hne Hs. rewrite path_join_nonempty by exact Hne.
  unfold path_parent. rewrite reverse_app, reverse_cons, <- app_assoc.
  rewrite dropwhile_app_all.
  - change (dropwhile (fun c => negb (Ascii.eqb c slash)) ([slash] ++ reverse dir))
      with (slash :: reverse dir).
    cbn [drop]. apply reverse_involutive.
  - apply Forall_reverse, Forall_forall. intros c Hc.
    destruct (Ascii.eqb_spec c slash) as [->|Hn]; [contradiction|reflexivity].
Qed.

Lemma featured_png_parent (t : pystr) :
  path_parent (featured_png t) = episode_dir_of t.
Proof.
  apply path_parent_join; [discriminate|].
  intros H. vm_compute in H.
  repeat (apply elem_of_cons in H as [H|H]; [discriminate|]).
  apply not_elem_of_nil in H. exact H.
Qed.

Lemma image_step_none (env : Env) (episode : Episode) (t : pystr) (w : World) :
  no_image_to_store env episode ->
  exists evs,
    (evs = [] \/ evs = [LogImageWarning])
    /\ image_step env episode t w = (inr false, logged evs w).
Proof.
  unfold no_image_to_store. intros H. unfold image_step, download_image.
  destruct (image_url episode) as [|c url] eqn:E.
  - exists []. split; [left; reflexivity|]. cbn.
    unfold ret, logged. rewrite app_nil_r. destruct w; reflexivity.
  - destruct H as [H|[H H']]; [discriminate|]. cbn [truthy negb].
    rewrite H, H'.
    exists [LogImageWarning]. split; [right; reflexivity|]. reflexivity.
Qed.

(** An image step that returned has met no exception it does not catch. *)
Lemma image_step_returned (env : Env) (episode : Episode) (t : pystr)
    (w w' : World) (b : bool) :
  image_step env episode t w = (inr b, w') ->
  image_url episode = [] \/ http_get env (image_url episode) = None ->
  no_image_to_store env episode.
Proof.
  unfold image_step, download_image, no_image_to_store.
  destruct (image_url episode) as [|c url] eqn:E; [left; reflexivity|].
  intros H [Hi|Hi]; [discriminate|]. right. split; [exact Hi|].
  cbn [truthy negb] in H. rewrite Hi in H.
  destruct (http_escapes env (c :: url)); [discriminate|reflexivity].
Qed.

Lemma render_returned (env : Env) (episode : Episode) (w w' : World)
    (d : pystr) :
  create_episode_post env episode w = (inr d, w') ->
  image_url episode = [] \/ http_get env (image_url episode) = None ->
  no_image_to_store env episode.
Proof.
  destruct (title episode) as [t|] eqn:Ht;
    [|unfold create_episode_post; rewrite Ht; discriminate].
  rewrite (create_episode_post_unfold env episode t Ht). unfold bind.
  destruct (mkdir_p env (episode_dir_of t) w) as [[e1|[]] w1]; [discriminate|].
  destruct (image_step env episode t w1) as [[e2|b] w2] eqn:E2; [discriminate|].
  intros _. exact (image_step_returned env episode t w1 w2 b E2).
Qed.

(** The render of an episode without an image to fetch, step by step. *)
Lemma create_episode_post_plain (env : Env) (episode : Episode) (t : pystr)
    (w : World) :
  title episode = Some t ->
  os_denies env (episode_dir_of t) = false ->
  os_denies env (index_qmd t) = false ->
  w_files w !! episode_dir_of t = None ->
  index_qmd t ∉ w_dirs w ->
  no_image_to_store env episode ->
  exists evs,
    (evs = [] \/ evs = [LogImageWarning])
    /\ create_episode_post env episode w
       = (inr (episode_dir_of t), with_post t episode evs w).
Proof.
  intros Ht Hd Hq Hf Hnd Himg.
  rewrite (create_episode_post_unfold env episode t Ht).
  unfold bind at 1. unfold mkdir_p at 1. rewrite Hd, Hf.
  rewrite bool_decide_false by (intros [x Hx]; discriminate). cbn [orb].
  unfold bind at 1.
  match goal with |- context [image_step env episode t ?w1] =>
    destruct (image_step_none env episode t w1 Himg) as (evs & Hev & ->) end.
  exists evs. split; [exact Hev|].
  unfold bind at 1. unfold write_file at 1. rewrite Hq. cbn [orb logged w_dirs].
  rewrite bool_decide_false.
  - cbv [bind print ret with_post logged w_dirs w_files w_state w_log w_time].
    rewrite <- app_assoc. reflexivity.
  - intros Hin. apply elem_of_union in Hin as [Hin|Hin]; [|exact (Hnd Hin)].
    apply elem_of_singleton in Hin. exact (index_qmd_not_dir t Hin).
Qed.

(** X9: an absent image, or an image request that fails with a
    [RequestException], does not stop the post. When the operating system
    refuses neither the directory nor [index.qmd], no file has the name of
    the directory and no directory the name of [index.qmd], the render of
    an episode without image address, or whose image request raises a
    [RequestException], returns the directory; afterwards [index.qmd]
    holds the text of the episode, every other file is as it was, and at
    most a warning about the image has been printed. A request that raises
    anything else is outside this statement: the render raises then. *)
Theorem post_created_without_image (env : Env) (episode : Episode)
    (t : pystr) (w : World) :
  title episode = Some t ->
  os_denies env (episode_dir_of t) = false ->
  os_denies env (index_qmd t) = false ->
  w_files w !! episode_dir_of t = None ->
  index_qmd t ∉ w_dirs w ->
  image_url episode = []
  \/ (http_get env (image_url episode) = None
      /\ http_escapes env (image_url episode) = None) ->
  exists w' evs,
    create_episode_post env episode w = (inr (episode_dir_of t), w')
    /\ w_files w' !! index_qmd t = Some (render t episode)
    /\ (forall path, path <> index_qmd t -> w_files w' !! path = w_files w !! path)
    /\ episode_dir_of t ∈ w_dirs w'
    /\ (evs = [] \/ evs = [LogImageWarning])
    /\ w_log w' = w_log w ++ evs ++ [LogCreatedPost (index_qmd t)].
Proof.
  intros Ht Hd Hq Hf Hnd Himg.
  destruct (create_episode_post_plain env episode t w Ht Hd Hq Hf Hnd Himg)
    as (evs & Hev & E).
  exists (with_post t episode evs w), evs. split; [exact E|]. cbn.
  split; [apply lookup_insert_eq|].
  split; [intros path Hp; apply lookup_insert_ne; congruence|].
  split; [apply elem_of_union; left; apply elem_of_singleton; reflexivity|].
  split; [exact Hev|reflexivity].
Qed.

(** The episode of the test script, which has no image address, and an
    episode whose image request fails with a [RequestException]. *)
Lemma post_created_without_image_witness :
  let t := str "Test Episode: Data Science in Healthcare" in
  let r := create_episode_post quiet_env test_episode empty_world in
  let t2 := str "Test Episode" in
  let e2 := episode_titled t2 (str "guid-2") (str "https://example.org/cover.png") in
  let r2 := create_episode_post quiet_env e2 empty_world in
  (fst r = inr (episode_dir_of t)
   /\ w_files (snd r) !! index_qmd t = Some (render t test_episode))
  /\ (fst r2 = inr (episode_dir_of t2)
      /\ w_files (snd r2) !! index_qmd t2 = Some (render t2 e2)
      /\ w_files (snd r2) !! featured_png t2 = None).
Proof.
  intros t r t2 e2 r2. split.
  - destruct (post_created_without_image quiet_env test_episode t empty_world)
      as (w' & evs & E & Hq & _); try reflexivity.
    + apply not_elem_of_empty.
    + left. reflexivity.
    + subst r. rewrite E. split; [reflexivity|exact Hq].
  - destruct (post_created_without_image quiet_env e2 t2 empty_world)
      as (w' & evs & E & Hq & Ho & _); try reflexivity.
    + apply not_elem_of_empty.
    + right. split; reflexivity.
    + subst r2. rewrite E. split; [reflexivity|]. split; [exact Hq|].
      cbn [snd]. rewrite Ho; [reflexivity|].
      exact (featured_png_not_index_qmd t2).
Defined.

(** X10: when the image is served and the operating system refuses
    nothing, the render stores it as [featured.png] beside [index.qmd],
    touches no other file and prints the two lines of a download and of a
    created post. *)
Theorem post_created_with_image (env : Env) (episode : Episode) (t : pystr)
    (content : pystr) (w : World) :
  title episode = Some t ->
  image_url episode <> [] ->
  http_get env (image_url episode) = Some content ->
  os_denies env (episode_dir_of t) = false ->
  os_denies env (index_qmd t) = false ->
  os_denies env (featured_png t) = false ->
  w_files w !! episode_dir_of t = None ->
  index_qmd t ∉ w_dirs w ->
  featured_png t ∉ w_dirs w ->
  exists w',
    create_episode_post env episode w = (inr (episode_dir_of t), w')
    /\ w_files w' !! featured_png t = Some content
    /\ w_files w' !! index_qmd t = Some (render t episode)
    /\ (forall path, path <> index_qmd t -> path <> featured_png t ->
          w_files w' !! path = w_files w !! path)
    /\ w_log w' = w_log w ++ [LogDownloaded (featured_png t);
                              LogCreatedPost (index_qmd t)].
Proof.
  intros Ht Hurl Hget Hd Hq Hp Hf Hnq Hnp.
  assert (E : create_episode_post env episode w
              = (inr (episode_dir_of t),
                 with_post_and_image t episode content w)).
  { rewrite (create_episode_post_unfold env episode t Ht).
    unfold bind at 1. unfold mkdir_p at 1. rewrite Hd, Hf.
    rewrite bool_decide_false by (intros [x Hx]; discriminate). cbn [orb].
    unfold bind at 1. unfold image_step, download_image.
    destruct (image_url episode) as [|c url] eqn:Eu; [contradiction|].
    cbn [truthy negb]. rewrite Hget.
    unfold bind at 1. unfold mkdir_p at 1.
    rewrite featured_png_parent, Hd. cbn [w_files]. rewrite Hf.
    rewrite bool_decide_false by (intros [x Hx]; discriminate). cbn [orb].
    unfold bind at 1. unfold write_file at 1. rewrite Hp. cbn [orb w_dirs].
    rewrite bool_decide_false.
    2:{ intros Hin. apply elem_of_union in Hin as [Hin|Hin].
        - apply elem_of_singleton in Hin.
          revert Hin. apply path_join_longer. discriminate.
        - apply elem_of_union in Hin as [Hin|Hin]; [|exact (Hnp Hin)].
          apply elem_of_singleton in Hin.
          revert Hin. apply path_join_longer. discriminate. }
    unfold bind at 1. unfold print at 1. unfold bind at 1. unfold ret at 1.
    unfold write_file at 1. rewrite Hq. cbn [orb w_dirs].
    rewrite bool_decide_false.
    2:{ intros Hin. apply elem_of_union in Hin as [Hin|Hin].
        - apply elem_of_singleton in Hin. exact (index_qmd_not_dir t Hin).
        - apply elem_of_union in Hin as [Hin|Hin]; [|exact (Hnq Hin)].
          apply elem_of_singleton in Hin. exact (index_qmd_not_dir t Hin). }
    cbv [bind print ret with_post_and_image w_dirs w_files w_state w_log w_time].
    f_equal. f_equal.
    - rewrite (assoc_L (∪)), (idemp_L (∪)). reflexivity.
    - rewrite <- app_assoc. reflexivity. }
  exists (with_post_and_image t episode content w). split; [exact E|]. cbn.
  split; [|split; [apply lookup_insert_eq|split; [|reflexivity]]].
  - rewrite lookup_insert_ne by (intros H; symmetry in H;
      exact (featured_png_not_index_qmd t H)).
    apply lookup_insert_eq.
  - intros path H1 H2. rewrite !lookup_insert_ne by congruence. reflexivity.
Qed.

Lemma post_created_with_image_witness :
  let t := str "Test Episode" in
  let e := episode_titled t (str "guid-1") (str "https://example.org/cover.png") in
  let r := create_episode_post (serving_env (str "PNG")) e empty_world in
  fst r = inr (episode_dir_of t)
  /\ w_files (snd r) !! featured_png t = Some (str "PNG").
Proof.
  intros t e r.
  destruct (post_created_with_image (serving_env (str "PNG")) e t (str "PNG")
              empty_world) as (w' & E & Hp & _); try reflexivity.
  - discriminate.
  - apply not_elem_of_empty.
  - apply not_elem_of_empty.
  - subst r. rewrite E. split; [reflexivity|exact Hp].
Defined.



Lemma render_needs_free_index (env : Env) (episode : Episode) (t : pystr)
    (w w' : World) (d : pystr) :
  title episode = Some t ->
  no_image_to_store env episode ->
  create_episode_post env episode w = (inr d, w') ->
  index_qmd t ∉ w_dirs w.
Proof.
  intros Ht Himg H Hin.
  rewrite (create_episode_post_unfold env episode t Ht) in H.
  unfold bind at 1 in H.
  destruct (mkdir_p env (episode_dir_of t) w) as [r1 w1] eqn:E1.
  apply mkdir_p_cases in E1 as [[-> ->]|(-> & _ & _ & Hd1 & _)];
    [discriminate|].
  unfold bind at 1 in H.
  destruct (image_step_none env episode t w1 Himg) as (evs & _ & E).
  rewrite E in H. unfold bind at 1 in H. unfold write_file at 1 in H.
  cbn [logged w_dirs] in H.
  rewrite (bool_decide_true (index_qmd t ∈ w_dirs w1)) in H.
  - rewrite orb_true_r in H. discriminate.
  - rewrite Hd1. apply elem_of_union. right. exact Hin.
Qed.

(** X12: rendering an episode a second time changes nothing but the
    printed lines, when there is no image to fetch: the second call
    returns the same directory and leaves the files and the directories as
    the first call left them. *)
Theorem rerender_changes_nothing (env : Env) (episode : Episode)
    (w w1 : World) (d : pystr) :
  image_url episode = [] \/ http_get env (image_url episode) = None ->
  create_episode_post env episode w = (inr d, w1) ->
  exists w2,
    create_episode_post env episode w1 = (inr d, w2)
    /\ w_files w2 = w_files w1
    /\ w_dirs w2 = w_dirs w1
    /\ w_state w2 = w_state w1.
Proof.
  intros Himg H1.
  apply (render_returned env episode w w1 d H1) in Himg.
  destruct (create_episode_post_returns env episode w w1 d H1)
    as (t & Ht & -> & Hd & Hq & Hf & _ & _ & _ & _ & Hf1 & Hq1).
  pose proof (render_needs_free_index env episode t w w1 _ Ht Himg H1) as Hnd.
  destruct (create_episode_post_plain env episode t w Ht Hd Hq Hf Hnd Himg)
    as (evs & _ & E).
  rewrite E in H1. injection H1 as <-.
  destruct (create_episode_post_plain env episode t
              (with_post t episode evs w) Ht Hd Hq) as (evs2 & _ & E2).
  - cbn. rewrite lookup_insert_ne by apply index_qmd_not_dir. exact Hf.
  - cbn. intros Hin. apply elem_of_union in Hin as [Hin|Hin]; [|exact (Hnd Hin)].
    apply elem_of_singleton in Hin. exact (index_qmd_not_dir t Hin).
  - exact Himg.
  - eexists. split; [exact E2|]. cbn.
    split; [apply insert_insert_eq|].
    split; [|reflexivity].
    rewrite (assoc_L (∪)), (idemp_L (∪)). reflexivity.
Qed.

Lemma rerender_changes_nothing_witness :
  let r1 := create_episode_post quiet_env test_episode empty_world in
  let r2 := create_episode_post quiet_env test_episode (snd r1) in
  fst r2 = fst r1 /\ w_files (snd r2) = w_files (snd r1).
Proof.
  intros r1 r2.
  set (d := str "content/podcasts/posts/test-episode-data-science-in-healthcare").
  assert (F1 : fst r1 = inr d) by (vm_compute; reflexivity).
  destruct (rerender_changes_nothing quiet_env test_episode empty_world
              (snd r1) d) as (w2 & E2 & Hf & _).
  - left. reflexivity.
  - rewrite <- F1. apply surjective_pairing.
  - subst r2. rewrite E2, F1. split; [reflexivity|exact Hf].
Defined.

(** ** Topics and summary *)

Lemma found_topics (descr x : pystr) :
  x ∈ title_case <$>
        List.filter (fun keyword => contains keyword (lower descr)) topic_keywords
  <-> exists k, occurs_in descr k /\ x = title_case k.
Proof.
  rewrite list_elem_of_fmap. unfold occurs_in. split.
  - intros (k & -> & Hk). apply list_elem_of_In, filter_In in Hk as [Hin Hc].
    exists k. split; [split; [apply list_elem_of_In, Hin | exact Hc] | reflexivity].
  - intros (k & [Hin Hc] & ->). exists k. split; [reflexivity|].
    apply list_elem_of_In, filter_In. split; [apply list_elem_of_In, Hin | exact Hc].
Qed.

(** X13: the topics of a post are never empty. When keywords of the
    vocabulary occur in the description, in any case of letters, the
    topics are exactly those keywords, title-cased; when none occurs they
    are the two default topics. Either way every topic is a title-cased
    keyword of the vocabulary. *)
Theorem key_topics_spec (descr : pystr) :
  key_topics_of descr <> []
  /\ Forall (fun x => x ∈ title_case <$> topic_keywords) (key_topics_of descr)
  /\ ((exists k, occurs_in descr k)
      /\ (forall x, x ∈ key_topics_of descr
                    <-> exists k, occurs_in descr k /\ x = title_case k)
      \/ (~ (exists k, occurs_in descr k))
         /\ key_topics_of descr = [str "Health Metrics"; str "Data Science"]).
Proof.
  unfold key_topics_of.
  pose proof (found_topics descr) as Hf.
  destruct (title_case <$> List.filter _ topic_keywords) as [|y found] eqn:E.
  - split; [discriminate|]. split.
    + repeat constructor; vm_compute;
        repeat (first [apply list_elem_of_here | apply list_elem_of_further]).
    + right. split; [|reflexivity]. intros (k & Hk).
      assert (H : title_case k ∈ ([] : list pystr))
        by (apply Hf; exists k; split; [exact Hk|reflexivity]).
      apply not_elem_of_nil in H. exact H.
  - split; [discriminate|]. split.
    + apply Forall_forall. intros x Hx. apply Hf in Hx as (k & [Hin _] & ->).
      apply list_elem_of_fmap. exists k. split; [reflexivity|exact Hin].
    + left. split; [|exact Hf].
      destruct (proj1 (Hf y) (list_elem_of_here _ _)) as (k & Hk & _).
      exists k. exact Hk.
Qed.

Lemma dropwhile_all (p : ascii -> bool) (s : pystr) :
  Forall (fun c => p c = true) s -> dropwhile p s = [].
Proof.
  induction 1 as [|c s Hc _ IH]; [reflexivity|]. simpl. rewrite Hc. exact IH.
Qed.

Lemma dropwhile_id (p : ascii -> bool) (s : pystr) :
  (forall c, head s = Some c -> p c = false) -> dropwhile p s = s.
Proof.
  destruct s as [|a s]; [reflexivity|]. intros H. simpl.
  rewrite (H a eq_refl). reflexivity.
Qed.

Lemma strip_trimmed (s : pystr) :
  exists pre post, trimmed s pre (strip s) post.
Proof.
  unfold trimmed, strip, strip_class.
  destruct (dropwhile_split is_space s) as (pre & Heq & Hall).
  destruct (dropwhile_split is_space (reverse (dropwhile is_space s)))
    as (post & Heq' & Hall').
  exists pre, (reverse post). split; [|split; [exact Hall|split]].
  - rewrite <- reverse_app, <- Heq', reverse_involutive. exact Heq.
  - apply Forall_reverse. exact Hall'.
  - split; [apply (strip_class_head is_space s)
           |apply (strip_class_last is_space s)].
Qed.

Lemma trimmed_is_strip (s pre body post : pystr) :
  trimmed s pre body post -> body = strip s.
Proof.
  intros (-> & Hpre & Hpost & Hh & Hl). unfold strip, strip_class.
  rewrite dropwhile_app_all by exact Hpre.
  destruct body as [|a body].
  - cbn [app]. rewrite (dropwhile_all is_space post Hpost). reflexivity.
  - change (dropwhile is_space ((a :: body) ++ post))
      with (if is_space a then dropwhile is_space (body ++ post)
            else (a :: body) ++ post).
    rewrite (Hh a eq_refl), reverse_app.
    rewrite dropwhile_app_all by (apply Forall_reverse; exact Hpost).
    rewrite dropwhile_id; [symmetry; apply reverse_involutive|].
    intros c. rewrite head_reverse. apply Hl.
Qed.

Lemma summary_of_eq (descr : pystr) :
  summary_of descr = strip (take 200 descr) ++ ellipsis_of descr.
Proof.
  unfold summary_of, slice_to, ellipsis_of.
  destruct (decide (200 < length descr)).
  - rewrite bool_decide_true by assumption. reflexivity.
  - rewrite bool_decide_false by assumption. rewrite app_nil_r. reflexivity.
Qed.

(** X14: the summary is the first 200 characters of the description
    without the white space at their two ends, followed by ["..."] exactly
    when the description has more than 200 characters. The first 200
    characters split in one way only into white space, a text that
    neither starts nor ends with white space, and white space: that text
    is the body of the summary. The summary is never longer than 203
    characters. *)
Theorem summary_is_excerpt (descr : pystr) :
  (exists body pre post,
     trimmed (take 200 descr) pre body post
     /\ summary_of descr = body ++ ellipsis_of descr)
  /\ (forall body pre post,
        trimmed (take 200 descr) pre body post ->
        summary_of descr = body ++ ellipsis_of descr)
  /\ length (summary_of descr) <= 203.
Proof.
  split; [|split].
  - destruct (strip_trimmed (take 200 descr)) as (pre & post & H).
    exists (strip (take 200 descr)), pre, post.
    split; [exact H|apply summary_of_eq].
  - intros body pre post H. rewrite (trimmed_is_strip _ _ _ _ H).
    apply summary_of_eq.
  - destruct (strip_trimmed (take 200 descr)) as (pre & post & E & _).
    apply (f_equal length) in E. rewrite !length_app, length_take in E.
    rewrite summary_of_eq, length_app. unfold ellipsis_of.
    case_bool_decide; simpl; lia.
Qed.

(** A description with white space at both ends. *)
Lemma summary_is_excerpt_witness :
  let descr := str "  Data science in healthcare. " in
  summary_of descr = str "Data science in healthcare.".
Proof.
  intros descr.
  destruct (summary_is_excerpt descr) as (_ & H & _).
  rewrite (H (str "Data science in healthcare.") (str "  ") (str " "));
    [reflexivity|].
  unfold trimmed. split; [reflexivity|].
  split; [repeat constructor|]. split; [repeat constructor|].
  split; intros c [= <-]; reflexivity.
Defined.

(** ** Fetching the feed *)

Lemma same_but_log_refl (w : World) : same_but_log w w.
Proof. repeat split. Qed.

Lemma same_but_log_trans (w1 w2 w3 : World) :
  same_but_log w1 w2 -> same_but_log w2 w3 -> same_but_log w1 w3.
Proof.
  intros (A1 & A2 & A3 & A4) (B1 & B2 & B3 & B4).
  repeat split; congruence.
Qed.

Lemma same_but_log_logged (evs : list LogEvent) (w : World) :
  same_but_log w (logged evs w).
Proof. repeat split. Qed.

Lemma first_answer_cons (env : Env) (url : pystr) (urls : list pystr) :
  first_answer env (url :: urls)
  = match http_get env url with
    | Some content => Some content
    | None => first_answer env urls
    end.
Proof. unfold first_answer. simpl. destruct (http_get env url); reflexivity. Qed.

Lemma fetch_from_spec (env : Env) (i n : nat) (urls : list pystr) (w : World) :
  fst (fetch_from env i n urls w)
  = match first_answer env urls with
    | Some content =>
      match parse_xml env content with
      | Some root => inr root
      | None => inl ParseError
      end
    | None => inl (SystemExit 1)
    end
  /\ same_but_log w (snd (fetch_from env i n urls w)).
Proof.
  revert i w. induction urls as [|url urls IH]; intros i w.
  - split; [reflexivity|]. apply (same_but_log_logged [LogFetchGiveUp]).
  - cbn [fetch_from]. rewrite bind_print, first_answer_cons.
    destruct (http_get env url) as [content|] eqn:Hget.
    + rewrite bind_print.
      destruct (parse_xml env content); (split; [reflexivity|]);
        apply (same_but_log_trans _ (logged [LogFetchAttempt i url] w));
        apply same_but_log_logged.
    + rewrite bind_print.
      assert (Hk : forall w0,
                 fst (fetch_from env (S i) n urls w0)
                 = match first_answer env urls with
                   | Some content =>
                     match parse_xml env content with
                     | Some root => inr root
                     | None => inl ParseError
                     end
                   | None => inl (SystemExit 1)
                   end
                 /\ same_but_log w0 (snd (fetch_from env (S i) n urls w0)))
        by (intros w0; apply IH).
      set (w1 := logged [LogFetchFailed] (logged [LogFetchAttempt i url] w)).
      assert (H1 : same_but_log w w1).
      { eapply same_but_log_trans; apply same_but_log_logged. }
      destruct (decide (i < n)).
      * rewrite bind_print. destruct (Hk (logged [LogFetchNext] w1)) as [A B].
        split; [exact A|].
        eapply same_but_log_trans; [exact H1|].
        eapply same_but_log_trans; [apply same_but_log_logged|exact B].
      * unfold bind at 1. unfold ret at 1. destruct (Hk w1) as [A B].
        split; [exact A|]. eapply same_but_log_trans; [exact H1|exact B].
Qed.

(** X15: the feed is what the first address that answers gives, parsed.
    When its content does not parse the fetch raises [ParseError] without
    trying the address after it; when no address answers it raises
    [SystemExit] with status 1. The fetch changes nothing but the printed
    lines. *)
Theorem fetch_rss_feed_spec (env : Env) (w : World) :
  fst (fetch_rss_feed env w)
  = match first_answer env RSS_FEED_URLS with
    | Some content =>
      match parse_xml env content with
      | Some root => inr root
      | None => inl ParseError
      end
    | None => inl (SystemExit 1)
    end
  /\ same_but_log w (snd (fetch_rss_feed env w)).
Proof.
  unfold fetch_rss_feed. rewrite bind_print.
  destruct (fetch_from_spec env 1 (length RSS_FEED_URLS) RSS_FEED_URLS
              (logged [LogFetchStart] w)) as [H1 H2].
  split; [exact H1|].
  eapply same_but_log_trans; [apply same_but_log_logged|exact H2].
Qed.

(** ** The loop as a whole *)

Lemma has_empty_pubDate_dec (item : Element) :
  has_empty_pubDate item \/ ~ has_empty_pubDate item.
Proof.
  unfold has_empty_pubDate.
  destruct (find (str "pubDate") item) as [p|] eqn:Hp.
  - destruct (text p) as [s|] eqn:Ht.
    + right. intros (p' & [= <-] & H). congruence.
    + left. exists p. split; [reflexivity|exact Ht].
  - right. intros (p' & H & _). discriminate.
Qed.

Lemma extract_bad (env : Env) (item : Element) (w : World) :
  has_empty_pubDate item ->
  extract_episode_info env item w = (inl TypeError, w).
Proof.
  intros (p & Hp & Ht). unfold extract_episode_info, bind.
  rewrite (extract_date_empty env item p w Hp Ht). reflexivity.
Qed.

Lemma extract_ok (env : Env) (item : Element) (w : World) :
  ~ has_empty_pubDate item ->
  exists ep w1,
    extract_episode_info env item w = (inr ep, w1)
    /\ guid ep = extract_guid item
    /\ title ep = extract_title item
    /\ (w1 = w \/ w1 = ticked w).
Proof.
  intros Hn. unfold extract_episode_info, bind.
  destruct (extract_date_cases env item w) as [[d [H|H]]|H]; rewrite H.
  - rewrite extract_episode_id_value. eexists _, _.
    split; [reflexivity|]. repeat split. left. reflexivity.
  - rewrite extract_episode_id_value. eexists _, _.
    split; [reflexivity|]. repeat split. right. reflexivity.
  - exfalso. apply Hn. unfold extract_date in H.
    destruct (find (str "pubDate") item) as [p|] eqn:Hp; [|discriminate].
    destruct (text p) as [s|] eqn:Ht.
    + destruct (strptime env s FmtNamedZone);
        [|destruct (strptime env s FmtNumericOffset)]; discriminate.
    + exists p. split; [exact Hp|exact Ht].
Qed.

Lemma create_episode_post_state (env : Env) (episode : Episode) (w w' : World)
    (r : exn + pystr) :
  create_episode_post env episode w = (r, w') -> w_state w' = w_state w.
Proof.
  destruct (title episode) as [t|] eqn:Ht.
  2:{ unfold create_episode_post. rewrite Ht. intros [= _ <-]. reflexivity. }
  rewrite (create_episode_post_unfold env episode t Ht). unfold bind.
  destruct (mkdir_p env (episode_dir_of t) w) as [r1 w1] eqn:E1.
  apply mkdir_p_cases in E1 as [[-> ->]|(-> & _ & _ & _ & _ & Hs1 & _)].
  { intros [= _ <-]. reflexivity. }
  destruct (image_step env episode t w1) as [r2 w2] eqn:E2.
  apply image_step_cases in E2 as (Hr2 & Hs2 & _).
  destruct Hr2 as [->|[(cls & _ & _ & _ & -> & _)|[b ->]]];
    [intros [= _ <-]; congruence|intros [= _ <-]; congruence|].
  destruct (write_file env (index_qmd t) (render t episode) w2) as [r3 w3] eqn:E3.
  apply write_file_cases in E3 as [[-> ->]|(-> & _ & _ & _ & _ & Hs3 & _)].
  - intros [= _ <-]. congruence.
  - unfold print, ret. intros [= _ <-]. cbn. congruence.
Qed.

(** One turn of the loop, by the entry it looks at. *)
Lemma process_item_outcome (env : Env) (item : Element) (st : LoopState)
    (w : World) :
  (has_empty_pubDate item
   /\ process_item env item st w = (inl TypeError, w))
  \/ (~ has_empty_pubDate item
      /\ exists st' w',
           process_item env item st w = (inr st', w')
           /\ w_state w' = w_state w
           /\ (extract_guid item ∈ processed st ->
               st' = st /\ w_dirs w' = w_dirs w /\ w_files w' = w_files w
               /\ w_log w' = w_log w)
           /\ (st' = st
               \/ ((extract_guid item ∉ processed st)
                   /\ st' = record_guid (extract_guid item) st))).
Proof.
  destruct (has_empty_pubDate_dec item) as [Hb|Hn].
  - left. split; [exact Hb|]. unfold process_item, bind.
    rewrite (extract_bad env item w Hb). reflexivity.
  - right. split; [exact Hn|].
    destruct (extract_ok env item w Hn) as (ep & w1 & He & Hg & _ & Hw1).
    pose proof (extract_episode_info_frame env item w w1 _ He)
      as (Fd & Ff & Fs & Fl).
    destruct (decide (guid ep ∈ processed st)) as [Hin|Hin].
    + exists st, w1. rewrite (process_item_skip env item st w w1 ep He Hin).
      split; [reflexivity|]. split; [exact Fs|]. split; [|left; reflexivity].
      intros _. repeat split; assumption.
    + destruct (create_episode_post env ep (logged (announce ep) w1))
        as [[e|dir] w2] eqn:Hc.
      * exists st, (logged (failure_lines e) w2).
        rewrite (process_item_failed env item st w w1 w2 ep e He Hin Hc).
        split; [reflexivity|].
        split; [cbn; rewrite (create_episode_post_state _ _ _ _ _ Hc); exact Fs|].
        split; [|left; reflexivity].
        intros Hin'. rewrite <- Hg in Hin'. contradiction.
      * exists (recorded ep st), (logged [LogSuccess; LogBlank] w2).
        rewrite (process_item_rendered env item st w w1 w2 ep dir He Hin Hc).
        split; [reflexivity|].
        split; [cbn; rewrite (create_episode_post_state _ _ _ _ _ Hc); exact Fs|].
        split; [intros Hin'; rewrite <- Hg in Hin'; contradiction|].
        right. rewrite <- Hg. split; [exact Hin|reflexivity].
Qed.

(** X16: the loop is stopped by one thing only, an entry whose publication
    date has no text: it then ends with [TypeError]; a feed without such
    an entry is always read to its end, whatever the renderer does. *)
Theorem loop_aborts_iff (env : Env) (items : list Element) (st : LoopState)
    (w : World) :
  (forall e w', process_items env items st w = (inl e, w') -> e = TypeError)
  /\ ((exists e w', process_items env items st w = (inl e, w'))
      <-> Exists has_empty_pubDate items)
  /\ ((exists st' w', process_items env items st w = (inr st', w'))
      <-> Forall (fun item => ~ has_empty_pubDate item) items).
Proof.
  revert st w. induction items as [|item items IH]; intros st w.
  - split; [discriminate|]. split; split.
    + intros (e & w' & H). discriminate.
    + intros H. inversion H.
    + intros _. constructor.
    + intros _. eexists _, _. reflexivity.
  - cbn [process_items]. unfold bind.
    destruct (process_item_outcome env item st w)
      as [[Hb ->]|(Hn & st1 & w1 & -> & _)].
    + split; [intros e w' [= <- _]; reflexivity|]. split; split.
      * intros _. apply Exists_cons_hd, Hb.
      * intros _. eexists _, _. reflexivity.
      * intros (st' & w' & H). discriminate.
      * intros H. apply Forall_cons in H as [H _]. contradiction.
    + destruct (IH st1 w1) as (I1 & I2 & I3).
      split; [exact I1|]. split; split.
      * intros H. apply Exists_cons_tl, I2, H.
      * intros H. apply I2. apply Exists_cons in H as [H|H]; [contradiction|exact H].
      * intros H. apply Forall_cons. split; [exact Hn|apply I3, H].
      * intros H. apply I3. apply Forall_cons in H as [_ H]. exact H.
Qed.

(** X17: a feed whose entries are all recorded already is passed over as a
    whole: the loop returns the state it started with, having written no
    file, created no directory, printed nothing and left the state file
    alone. *)
Theorem known_feed_is_noop (env : Env) (items : list Element)
    (st : LoopState) (w : World) :
  Forall (fun item => extract_guid item ∈ processed st
                      /\ ~ has_empty_pubDate item) items ->
  exists w',
    process_items env items st w = (inr st, w')
    /\ w_files w' = w_files w /\ w_dirs w' = w_dirs w
    /\ w_log w' = w_log w /\ w_state w' = w_state w.
Proof.
  intros H. revert w. induction H as [|item items [Hin Hn] _ IH]; intros w.
  - exists w. repeat split.
  - cbn [process_items]. unfold bind.
    destruct (process_item_outcome env item st w)
      as [[Hb _]|(_ & st1 & w1 & -> & Hs & Hskip & _)]; [contradiction|].
    destruct (Hskip Hin) as (-> & Hd & Hf & Hl).
    destruct (IH w1) as (w' & E & Hf' & Hd' & Hl' & Hs').
    exists w'. split; [exact E|]. repeat split; congruence.
Qed.

Lemma known_feed_is_noop_witness :
  let a := item_titled (str "Episode A") (str "g1") in
  let b := item_titled (str "Episode B") (str "g2") in
  let st := initial {[ Some (str "g1"); Some (str "g2") ]} in
  exists w', process_items quiet_env [a; b; a] st empty_world = (inr st, w')
             /\ w_files w' = ∅.
Proof.
  intros a b st.
  destruct (known_feed_is_noop quiet_env [a; b; a] st empty_world)
    as (w' & E & Hf & _).
  - assert (Hn : forall t g, ~ has_empty_pubDate (item_titled t g))
      by (intros t g (p & Hp & _); discriminate).
    repeat constructor; try apply Hn; cbn; set_solver.
  - exists w'. split; [exact E|exact Hf].
Defined.

Lemma process_items_outcome (env : Env) (P0 : gset pyval)
    (items : list Element) (st st' : LoopState) (w w' : World) :
  process_items env items st w = (inr st', w') ->
  loop_inv P0 st ->
  processed st = P0 ∪ list_to_set (new_episodes st) ->
  exists added,
    new_episodes st' = new_episodes st ++ added
    /\ added `sublist_of` (extract_guid <$> items)
    /\ processed st' = P0 ∪ list_to_set (new_episodes st')
    /\ loop_inv P0 st'
    /\ w_state w' = w_state w.
Proof.
  revert st w. induction items as [|item items IH]; intros st w H Hinv Hp.
  - injection H as <- <-. exists [].
    split; [rewrite app_nil_r; reflexivity|]. split; [constructor|].
    split; [exact Hp|]. split; [exact Hinv|reflexivity].
  - cbn [process_items] in H. unfold bind in H.
    destruct (process_item_outcome env item st w)
      as [[_ E]|(_ & st1 & w1 & E & Hs & _ & Hst)];
      rewrite E in H; [discriminate|].
    destruct Hst as [->|[Hnin ->]].
    + destruct (IH st w1 H Hinv Hp) as (added & A1 & A2 & A3 & A4 & A5).
      exists added. split; [exact A1|]. split; [|split; [exact A3|]].
      * cbn [fmap list_fmap]. apply sublist_cons, A2.
      * split; [exact A4|congruence].
    + assert (Hinv' : loop_inv P0 (record_guid (extract_guid item) st)).
      { destruct Hinv as (I1 & I2 & I3). split; [|split]; cbn.
        - intros g Hg. apply elem_of_union. right. apply I1, Hg.
        - intros g Hg. apply elem_of_app in Hg as [Hg|Hg].
          + destruct (I2 g Hg) as [Hp' Hn'].
            split; [apply elem_of_union; right; exact Hp' | exact Hn'].
          + apply list_elem_of_singleton in Hg as ->.
            split; [apply elem_of_union; left; apply elem_of_singleton; reflexivity|].
            intros H0. apply Hnin, I1, H0.
        - apply NoDup_app. split; [exact I3|]. split; [|apply NoDup_singleton].
          intros g Hg Hg'. apply list_elem_of_singleton in Hg' as ->.
          destruct (I2 _ Hg) as [Hp' _]. contradiction. }
      assert (Hp' : processed (record_guid (extract_guid item) st)
                    = P0 ∪ list_to_set
                             (new_episodes (record_guid (extract_guid item) st))).
      { cbn [record_guid processed new_episodes]. rewrite Hp.
        apply set_eq. intros x.
        rewrite !elem_of_union, !elem_of_list_to_set, elem_of_app,
          list_elem_of_singleton, elem_of_singleton. tauto. }
      destruct (IH _ w1 H Hinv' Hp') as (added & A1 & A2 & A3 & A4 & A5).
      exists (extract_guid item :: added). cbn in A1.
      split; [rewrite A1, <- app_assoc; reflexivity|].
      split; [cbn [fmap list_fmap]; apply sublist_skip, A2|].
      split; [exact A3|]. split; [exact A4|congruence].
Qed.

(** X18: the guids the loop reports as new are guids of entries of the
    feed, in the order of the feed, each once. *)
Theorem new_episodes_follow_feed (env : Env) (P0 : gset pyval)
    (items : list Element) (st : LoopState) (w w' : World) :
  process_items env items (initial P0) w = (inr st, w') ->
  new_episodes st `sublist_of` (extract_guid <$> items)
  /\ NoDup (new_episodes st)
  /\ length (new_episodes st) <= length items.
Proof.
  intros H.
  destruct (process_items_outcome env P0 items (initial P0) st w w' H
              (loop_inv_initial P0)) as (added & A1 & A2 & _ & A4 & _).
  { cbn. rewrite (right_id_L ∅ (∪)). reflexivity. }
  cbn in A1. rewrite A1. split; [exact A2|].
  split; [rewrite <- A1; apply A4|].
  apply sublist_length in A2. rewrite length_fmap in A2. exact A2.
Qed.

(** X19: the two numbers of the summary add up: the processed set at the
    end of the loop is the set it started with together with the new
    guids, none of which it held before, so that the episodes tracked are
    those tracked before plus the new ones. *)
Theorem tracked_is_previous_plus_new (env : Env) (P0 : gset pyval)
    (items : list Element) (st : LoopState) (w w' : World) :
  process_items env items (initial P0) w = (inr st, w') ->
  processed st = P0 ∪ list_to_set (new_episodes st)
  /\ P0 ## list_to_set (new_episodes st)
  /\ size (processed st) = size P0 + length (new_episodes st).
Proof.
  intros H.
  destruct (process_items_outcome env P0 items (initial P0) st w w' H
              (loop_inv_initial P0)) as (added & _ & _ & A3 & (_ & I2 & I3) & _).
  { cbn. rewrite (right_id_L ∅ (∪)). reflexivity. }
  assert (Hd : P0 ## (list_to_set (new_episodes st) : gset pyval)).
  { intros g Hg Hn. apply elem_of_list_to_set in Hn.
    destruct (I2 g Hn) as [_ Hn']. contradiction. }
  split; [exact A3|]. split; [exact Hd|].
  rewrite A3, size_union by exact Hd.
  rewrite size_list_to_set by exact I3. reflexivity.
Qed.

(** ** The run as a whole *)

Lemma stored_guids_default (w : World) :
  default [] (processed_episodes
                (default {| processed_episodes := Some []; last_run := None |}
                         (w_state w)))
  = stored_guids w.
Proof. unfold stored_guids. destruct (w_state w); reflexivity. Qed.

(** [main], with its steps laid out. *)
Lemma main_unfold (env : Env) (w : World) :
  main env w =
  let w1 := logged [LogPreviouslyProcessed (size (loaded_guids w))]
              (logged [LogBanner] w) in
  match fetch_rss_feed env w1 with
  | (inl e, w2) => (inl e, w2)
  | (inr root, w2) =>
    match find (str "channel") root with
    | None => (inl (SystemExit 1), logged [LogNoChannel] w2)
    | Some channel =>
      let items := findall (str "item") channel in
      match process_items env items (initial (loaded_guids w))
              (logged [LogFound (length items)] w2) with
      | (inl e, w3) => (inl e, w3)
      | (inr st, w3) =>
        match save_state env (final_state st (clock env (w_time w3)))
                (ticked w3) with
        | (inl e, w4) => (inl e, w4)
        | (inr _, w4) => report st w4
        end
      end
    end
  end.
Proof.
  unfold main. rewrite bind_print. unfold bind at 1. unfold load_state at 1.
  cbn [logged w_state]. rewrite stored_guids_default.
  fold (loaded_guids w). rewrite bind_print. unfold bind at 1.
  cbv zeta.
  destruct (fetch_rss_feed env _) as [[e|root] w2]; [reflexivity|].
  destruct (find (str "channel") root) as [channel|]; [|reflexivity].
  rewrite bind_print. unfold bind at 1. fold (initial (loaded_guids w)).
  destruct (process_items env _ _ _) as [[e|st] w3]; [reflexivity|].
  unfold bind at 1. unfold now at 1. fold (ticked w3).
  unfold bind at 1. fold (final_state st (clock env (w_time w3))).
  destruct (save_state env _ _) as [[e|u] w4]; reflexivity.
Qed.

Lemma print_new_episodes_ok (gs : list pyval) (w : World) :
  exists w', print_new_episodes gs w = (inr tt, w') /\ same_but_log w w'.
Proof.
  revert w. induction gs as [|g gs IH]; intros w.
  - exists w. split; [reflexivity|apply same_but_log_refl].
  - cbn [print_new_episodes]. rewrite bind_print.
    destruct (IH (logged [LogNewEpisode g] w)) as (w' & E & H).
    exists w'. split; [exact E|].
    eapply same_but_log_trans; [apply same_but_log_logged|exact H].
Qed.

Lemma report_ok (st : LoopState) (w : World) :
  exists w', report st w = (inr tt, w') /\ same_but_log w w'.
Proof.
  unfold report. rewrite bind_print.
  destruct (new_episodes st) as [|g gs].
  - eexists. split; [reflexivity|].
    eapply same_but_log_trans; apply same_but_log_logged.
  - destruct (print_new_episodes_ok (g :: gs) (logged [LogSummary
      (length (g :: gs)) (size (processed st))] w)) as (w' & E & H).
    exists w'. split; [exact E|].
    eapply same_but_log_trans; [apply same_but_log_logged|exact H].
Qed.

Lemma save_state_cases (env : Env) (state : StateDict) (w w' : World)
    (r : exn + unit) :
  save_state env state w = (r, w') ->
  (r = inl OSError /\ w_state w' = w_state w)
  \/ (r = inr tt /\ w_state w' = Some state /\ w_files w' = w_files w
      /\ w_time w' = w_time w).
Proof.
  unfold save_state, bind.
  destruct (mkdir_p env (path_parent STATE_FILE) w) as [r1 w1] eqn:E1.
  apply mkdir_p_cases in E1 as [[-> ->]|(-> & _ & _ & _ & Hf & Hs & _ & Ht)].
  { intros [= <- <-]. left. split; reflexivity. }
  destruct (os_denies env STATE_FILE).
  - intros [= <- <-]. left. split; [reflexivity|exact Hs].
  - intros [= <- <-]. right. split; [reflexivity|]. split; [reflexivity|].
    split; [exact Hf|exact Ht].
Qed.




(** X21: a run that ends normally has saved a state that holds every guid
    the state file held before, each guid once, and as [last_run] the time
    of the run: the reading of the clock that [main] makes after the loop,
    which is the last reading of the run, the one numbered [n] when the
    clock has been read [n + 1] times at the end. The state file never
    loses a guid. *)
Theorem saved_state_grows (env : Env) (w w' : World) :
  main env w = (inr tt, w') ->
  exists guids n,
    w_time w' = S n
    /\ w_state w'
       = Some {| processed_episodes := Some guids;
                 last_run := Some (clock env n) |}
    /\ NoDup guids
    /\ forall g, g ∈ stored_guids w -> g ∈ guids.
Proof.
  rewrite main_unfold. cbv zeta.
  destruct (fetch_rss_feed env _) as [[e1|root] w2]; [discriminate|].
  destruct (find (str "channel") root) as [channel|]; [|discriminate].
  destruct (process_items env _ _ _) as [[e3|st] w3] eqn:Ep; [discriminate|].
  destruct (save_state env _ _) as [[e4|u] w4] eqn:Es; [discriminate|].
  apply save_state_cases in Es as [[H _]|(_ & Hs & _ & Ht)]; [discriminate|].
  destruct (report_ok st w4) as (w5 & -> & (_ & _ & Hs5 & Ht5)).
  intros [= <-].
  exists (elements (processed st)), (w_time w3).
  split; [rewrite Ht5; exact Ht|].
  split; [rewrite Hs5; exact Hs|]. split; [apply NoDup_elements|].
  intros g Hg. apply elem_of_elements.
  destruct (process_items_inv env (loaded_guids w) _ _ _ _ _
              (loop_inv_initial _) Ep) as (Hsub & _).
  apply Hsub. unfold loaded_guids. apply elem_of_list_to_set, Hg.
Qed.

(** ** Runs of the properties above *)

(** A feed of three entries, the second known, the third a repeat of the
    first. *)
Lemma new_episodes_follow_feed_witness :
  let a := item_titled (str "Episode A") (str "g1") in
  let b := item_titled (str "Episode B") (str "g2") in
  let r := process_items quiet_env [b; a; b] (initial {[ Some (str "g1") ]})
             empty_world in
  new_episodes (state_of r)
    `sublist_of` [Some (str "g2"); Some (str "g1"); Some (str "g2")]
  /\ length (new_episodes (state_of r)) <= 3.
Proof.
  intros a b r.
  assert (F : fst r = inr (state_of r)) by (vm_compute; reflexivity).
  destruct (new_episodes_follow_feed quiet_env {[ Some (str "g1") ]} [b; a; b]
              (state_of r) empty_world (snd r)) as (H1 & _ & H3).
  - rewrite <- F. apply surjective_pairing.
  - split; [exact H1|exact H3].
Defined.

Lemma tracked_is_previous_plus_new_witness :
  let a := item_titled (str "Episode A") (str "g1") in
  let b := item_titled (str "Episode B") (str "g2") in
  let P0 : gset pyval := {[ Some (str "g1") ]} in
  let r := process_items quiet_env [b; a; b] (initial P0) empty_world in
  size (processed (state_of r)) = size P0 + length (new_episodes (state_of r)).
Proof.
  intros a b P0 r.
  assert (F : fst r = inr (state_of r)) by (vm_compute; reflexivity).
  destruct (tracked_is_previous_plus_new quiet_env P0 [b; a; b]
              (state_of r) empty_world (snd r)) as (_ & _ & H).
  - rewrite <- F. apply surjective_pairing.
  - exact H.
Defined.


(** The feed of the test script, read with a state file that holds one
    other guid. *)
Lemma saved_state_grows_witness :
  let w := {| w_dirs := ∅; w_files := ∅;
              w_state := Some {| processed_episodes := Some [Some (str "old")];
                                 last_run := None |};
              w_log := []; w_time := 0 |} in
  exists guids,
    w_state (snd (main mock_env w))
    = Some {| processed_episodes := Some guids; last_run := Some noon |}
    /\ Some (str "old") ∈ guids.
Proof.
  intros w.
  assert (F : fst (main mock_env w) = inr tt) by (vm_compute; reflexivity).
  destruct (saved_state_grows mock_env w (snd (main mock_env w)))
    as (guids & n & _ & Hs & _ & Hg).
  - rewrite <- F. apply surjective_pairing.
  - exists guids. split; [exact Hs|]. apply Hg. apply list_elem_of_here.
Defined.
